(** * gobert: the BERT term codec and its BURP framing

    A shallow embedding of [encode.go], [decode.go] and the type
    declarations of package [bert], followed by the properties of the
    codec that the specification states about it.

    Conventions of the embedding.
    - A byte is [Byte.byte]; Go's [int], [int64] and [big.Int] values are
      [Z], with every narrowing conversion ([uint8], [uint16], [uint32],
      [int32]) written out as the wrap-around it performs.
    - An [io.Writer] is the sequence of bytes appended to it: a writing
      function returns the bytes it emits, in order.
    - An [io.Reader] is the bytes still to come together with the
      condition met after the last of them: end of file, or an error of
      the underlying stream.
    - A Go function returning [(value, error)] returns both here as well;
      a run-time panic is an outcome of its own.
    - A slice is the list of its elements; capacity is taken to equal
      length, and a nil slice is not told apart from an empty one. *)

From Stdlib Require Import ZArith List Lia Bool Arith.
From coqutil Require Import Byte.
Import ListNotations.
Local Open Scope Z_scope.

(** ** Wire tags and special atoms (type declarations of the package) *)

Definition VersionTag : Z := 131.
Definition SmallIntTag : Z := 97.
Definition IntTag : Z := 98.
Definition SmallBignumTag : Z := 110.
Definition LargeBignumTag : Z := 111.
Definition FloatTag : Z := 99.
Definition AtomTag : Z := 100.
Definition SmallTupleTag : Z := 104.
Definition LargeTupleTag : Z := 105.
Definition NilTag : Z := 106.
Definition StringTag : Z := 107.
Definition ListTag : Z := 108.
Definition BinTag : Z := 109.
Definition BitTag : Z := 77.

(** The text of the four special atoms, as bytes. *)
Definition BertAtom : list byte := [Byte.x62; Byte.x65; Byte.x72; Byte.x74].
Definition NilAtom : list byte := [Byte.x6e; Byte.x69; Byte.x6c].
Definition TrueAtom : list byte := [Byte.x74; Byte.x72; Byte.x75; Byte.x65].
Definition FalseAtom : list byte :=
  [Byte.x66; Byte.x61; Byte.x6c; Byte.x73; Byte.x65].

(** ** Errors

    The three error values of the package, the error of
    [strconv.ParseFloat], and an error raised by the underlying stream. *)
Inductive Error : Type :=
| ErrBadMagic
| ErrUnknownType
| ErrUintType
| ErrSyntax
| ErrIO (code : nat).

(** ** The float text codec

    [fmt.Sprintf] and [strconv.ParseFloat] belong to Go's library; the
    codec only moves their text around.  They are taken as an interface:
    [formatFloat f] is [Sprintf("%.20e", f)] and [parseFloat s] is
    [float32(ParseFloat(s, 32))], [None] when the text does not parse. *)
Class FloatText : Type := {
  float32 : Type;
  float_zero : float32;
  formatFloat : float32 -> list byte;
  parseFloat : list byte -> option float32
}.

(** The three floats of the encoder's test fixtures, with the texts the
    fixtures give for them. *)
Inductive fixture_float : Type := F_zero | F_half | F_pi | F_neg_pi.

Definition digits_of (l : list Z) : list byte := map byte.of_Z l.

Definition fixture_format (f : fixture_float) : list byte :=
  match f with
  | F_zero => digits_of [48; 46; 48; 48; 48; 48; 48; 48; 48; 48; 48; 48; 48;
                         48; 48; 48; 48; 48; 48; 48; 48; 48; 101; 43; 48; 48]
  | F_half => digits_of [53; 46; 48; 48; 48; 48; 48; 48; 48; 48; 48; 48; 48;
                         48; 48; 48; 48; 48; 48; 48; 48; 48; 101; 45; 48; 49]
  | F_pi => digits_of [51; 46; 49; 52; 49; 53; 57; 48; 49; 49; 56; 52; 48; 56;
                       50; 48; 51; 49; 50; 53; 48; 48; 101; 43; 48; 48]
  | F_neg_pi => digits_of [45; 51; 46; 49; 52; 49; 53; 57; 48; 49; 49; 56; 52;
                           48; 56; 50; 48; 51; 49; 50; 53; 48; 48; 101; 43; 48;
                           48]
  end.

Definition bytes_eqb (a b : list byte) : bool :=
  if list_eq_dec Byte.byte_eq_dec a b then true else false.

Definition fixture_parse (s : list byte) : option fixture_float :=
  if bytes_eqb s (fixture_format F_zero) then Some F_zero
  else if bytes_eqb s (fixture_format F_half) then Some F_half
  else if bytes_eqb s (fixture_format F_pi) then Some F_pi
  else if bytes_eqb s (fixture_format F_neg_pi) then Some F_neg_pi
  else None.

#[export] Instance fixture_floats : FloatText := {
  float32 := fixture_float;
  float_zero := F_zero;
  formatFloat := fixture_format;
  parseFloat := fixture_parse
}.

Section Codec.

Context {FT : FloatText}.

(** ** Native values

    One type serves both directions: the dynamic values the encoder
    classifies by reflection and the [Term]s the decoder builds.  A value
    is taken after [reflect.Indirect] and after unwrapping of interfaces:
    a pointer stands for what it points to, a nil interface or nil pointer
    is [VNil]. *)
#[warnings="-register-all"]
Inductive Value : Type :=
| VNil                                         (* no value *)
| VBool (b : bool)                             (* bool *)
| VInt (n : Z)                                 (* int, int8 .. int64 *)
| VUint (n : Z)                                (* uint, uint8 .. uint64 *)
| VFloat (f : float32)                         (* float32, float64 *)
| VString (s : list byte)                      (* string *)
| VAtom (a : list byte)                        (* Atom *)
| VBytes (b : list byte)                       (* []byte *)
| VSlice (t : list Value)                      (* any other slice, []Term *)
| VArray (l : list Value)                      (* [n]T *)
| VBitstring (Bytes : list byte) (Bits : Z)    (* Bitstring{Bytes, Bits} *)
| VList (Items : list Value)                   (* List{Items} *)
| VBigInt (n : Z)                              (* big.Int *)
| VOther.                                      (* any other kind or struct *)

(** ** Numeric conversions *)

Definition uint8 (z : Z) : byte := byte.of_Z z.
Definition uint16 (z : Z) : Z := z mod 2 ^ 16.
Definition uint32 (z : Z) : Z := z mod 2 ^ 32.
(** [int32(u)] for an unsigned 32-bit [u]: two's complement. *)
Definition int32 (u : Z) : Z := if u <? 2 ^ 31 then u else u - 2 ^ 32.
Definition len {A : Type} (l : list A) : Z := Z.of_nat (length l).

(** ** encode.go: primitive writers *)

Definition write1 (ui8 : byte) : list byte := [ui8].

(** [binary.BigEndian.PutUint16] *)
Definition write2 (ui16 : Z) : list byte :=
  [byte.of_Z (Z.shiftr ui16 8); byte.of_Z ui16].

(** [binary.BigEndian.PutUint32] *)
Definition write4 (ui32 : Z) : list byte :=
  [byte.of_Z (Z.shiftr ui32 24); byte.of_Z (Z.shiftr ui32 16);
   byte.of_Z (Z.shiftr ui32 8); byte.of_Z ui32].

Definition writeSmallInt (n : byte) : list byte :=
  write1 (uint8 SmallIntTag) ++ write1 n.

Definition writeInt (n : Z) : list byte :=
  write1 (uint8 IntTag) ++ write4 n.

(** ** encode.go: numbers *)

(** [big.Int.Bytes]: the absolute value as a big-endian byte slice without
    leading zero bytes (empty for zero). *)
Fixpoint be_digits (fuel : nat) (m : Z) (acc : list byte) : list byte :=
  match fuel with
  | O => acc
  | S fuel' =>
      if m =? 0 then acc
      else be_digits fuel' (Z.shiftr m 8) (byte.of_Z m :: acc)
  end.

Definition Bytes (n : Z) : list byte :=
  be_digits (S (Z.to_nat (Z.log2 (Z.abs n)))) (Z.abs n) [].

Definition IsInt64 (n : Z) : bool := (- 2 ^ 63 <=? n) && (n <? 2 ^ 63).
Definition Sign (n : Z) : Z := Z.sgn n.

(** The big-number branch of [writeNumber]: the in-place swap loop is the
    reversal of the slice. *)
Definition writeBignum (n : Z) : list byte :=
  let bytes := rev (Bytes n) in
  write1 (uint8 SmallBignumTag) ++
  write1 (uint8 (len bytes)) ++
  (if Sign n >? -1 then write1 (uint8 0) else write1 (uint8 1)) ++
  bytes.

Definition writeNumber (n : Z) : list byte :=
  if IsInt64 n then
    let x := n in
    if (x >=? 0) && (x <? 256) then writeSmallInt (uint8 x)
    else if (x >=? -2147483648) && (x <=? 2147483647) then writeInt (uint32 x)
    else writeBignum n
  else writeBignum n.

(** ** encode.go: outcome of a write that can fail

    The bytes are those written to the sink before the function returned
    or panicked; nothing is rolled back. *)
Inductive Status : Type :=
| Done
| Failed (e : Error)
| Panicked.

Definition Emit : Type := (list byte * Status)%type.

Definition emitted (e : Emit) : list byte := fst e.
Definition status (e : Emit) : Status := snd e.

(** [make([]byte, 31-len(s))] panics when the text is longer than 31
    bytes; the text itself is already written by then. *)
Definition writeFloat (f : float32) : Emit :=
  let s := formatFloat f in
  if 31 - len s <? 0 then (write1 (uint8 FloatTag) ++ s, Panicked)
  else (write1 (uint8 FloatTag) ++ s ++ repeat Byte.x00 (Z.to_nat (31 - len s)),
        Done).

Definition writeAtom (a : list byte) : list byte :=
  write1 (uint8 AtomTag) ++ write2 (uint16 (len a)) ++ a.

Definition writeBinary (a : list byte) : list byte :=
  write1 (uint8 BinTag) ++ write4 (uint32 (len a)) ++ a.

(** The loop [for len(a) < size { a = append([]byte{0}, a...) }]. *)
Definition pad_left (a : list byte) (size : Z) : list byte :=
  repeat Byte.x00 (Z.to_nat (size - len a)) ++ a.

(** [bits] is a [uint8]; [(int(bits)+7)/8] and [bits%8] cannot overflow. *)
Definition writeBitstring (a : list byte) (bits : Z) : list byte :=
  let size := (bits + 7) / 8 in
  write1 (uint8 BitTag) ++ write4 (uint32 size) ++ write1 (uint8 (bits mod 8)) ++
  firstn (Z.to_nat size) (pad_left a size).

Definition writeNil : list byte := write1 (uint8 NilTag).

Definition writeString (s : list byte) : list byte :=
  write1 (uint8 StringTag) ++ write2 (uint16 (len s)) ++ s.

(** The element loop shared by [writeSmallTuple] and [writeList]: it stops
    at the first element whose encoding fails. *)
Definition writeEach (writeTag : Value -> Emit) : list Value -> Emit :=
  fix loop (l : list Value) : Emit :=
    match l with
    | [] => ([], Done)
    | x :: rest =>
        match writeTag x with
        | (out, Done) => let (out', st) := loop rest in (out ++ out', st)
        | (out, st) => (out, st)
        end
    end.

Definition writeSmallTuple (writeTag : Value -> Emit) (t : list Value) : Emit :=
  let (out, st) := writeEach writeTag t in
  (write1 (uint8 SmallTupleTag) ++ write1 (uint8 (len t)) ++ out, st).

(** [writeNil] follows the loop also when the loop broke on an error. *)
Definition writeList (writeTag : Value -> Emit) (l : list Value) : Emit :=
  let head := write1 (uint8 ListTag) ++ write4 (uint32 (len l)) in
  match writeEach writeTag l with
  | (out, Panicked) => (head ++ out, Panicked)
  | (out, st) => (head ++ out ++ writeNil, st)
  end.

(** [b.Bytes[0:k]]: a slice expression panics beyond the capacity. *)
Definition slice_to (a : list byte) (k : Z) : option (list byte) :=
  if k <=? len a then Some (firstn (Z.to_nat k) a) else None.

(** ** encode.go: dispatch on the runtime shape *)
Fixpoint writeTag (val : Value) : Emit :=
  match val with
  | VInt n => (writeNumber n, Done)
  | VUint n => (writeNumber n, Done)
  | VFloat f => writeFloat f
  | VAtom a => (writeAtom a, Done)
  | VString s => (writeString s, Done)
  | VBytes b => (writeBinary b, Done)
  | VSlice t => writeSmallTuple writeTag t
  | VArray l => writeList writeTag l
  | VBitstring bytes bits =>
      if negb (bits mod 8 =? 0) then (writeBitstring bytes bits, Done)
      else match slice_to bytes (bits / 8) with
           | Some a => (writeBinary a, Done)
           | None => ([], Panicked)
           end
  | VList items => writeList writeTag items
  | VBigInt n => (writeNumber n, Done)
  | VNil => (writeNil, Done)
  | VBool _ => ([], Failed ErrUnknownType)
  | VOther => ([], Failed ErrUnknownType)
  end.

Definition EncodeTo (val : Value) : Emit :=
  let (out, st) := writeTag val in
  (write1 (uint8 VersionTag) ++ out, st).

(** [Encode] returns the buffer and the error; a panic returns nothing. *)
Definition Encode (val : Value) : Emit := EncodeTo val.

Definition Marshal (val : Value) : Emit := EncodeTo val.

(** [MarshalResponse] writes the length and the buffer whatever [Encode]
    returned, and hands the error on. *)
Definition MarshalResponse (val : Value) : Emit :=
  match Encode val with
  | (resp, Panicked) => ([], Panicked)
  | (resp, st) => (write4 (uint32 (len resp)) ++ resp, st)
  end.


(** ** decode.go: readers

    [pending] are the bytes not yet read; [ending] is what the stream
    answers once they are used up: [None] for end of file, [Some e] for an
    error of the underlying source. *)
Record Reader : Type := mkReader {
  pending : list byte;
  ending : option Error
}.

(** [bytes.NewBuffer(data)] *)
Definition NewBuffer (data : list byte) : Reader := mkReader data None.

(** [io.LimitReader(r, n)]: end of file after [n] bytes, at once when
    [n <= 0]; the end of [r] itself when [r] is shorter. *)
Definition LimitReader (r : Reader) (n : Z) : Reader :=
  if n <=? len (pending r) then mkReader (firstn (Z.to_nat n) (pending r)) None
  else r.

(** [ioutil.ReadAll(r)]: everything up to the end of the stream; an end of
    file is not an error, any other ending is. *)
Definition ReadAll (r : Reader) : list byte * option Error :=
  (pending r, ending r).

(** The state of [r] after [ReadAll(io.LimitReader(r, n))]. *)
Definition advance (r : Reader) (n : Z) : Reader :=
  mkReader (skipn (Z.to_nat n) (pending r)) (ending r).

(** What a reading function does: it returns a value and an error and
    leaves the reader in a new state, or it panics.  [OutOfFuel] is the
    embedding running out of recursion depth; [DecodeFrom_total] shows it
    never happens. *)
Inductive Res (A : Type) : Type :=
| Ret (a : A) (err : option Error) (r : Reader)
| Panic
| OutOfFuel.

#[global] Arguments Ret {A} a err r.
#[global] Arguments Panic {A}.
#[global] Arguments OutOfFuel {A}.

(** [x, err := m; if err != nil { return zero, err }; k] *)
Definition andThen {A B : Type} (m : Res A) (zero : B)
  (k : A -> Reader -> Res B) : Res B :=
  match m with
  | Ret a None r => k a r
  | Ret _ (Some e) r => Ret zero (Some e) r
  | Panic => Panic
  | OutOfFuel => OutOfFuel
  end.

Notation "'got' x , r <-- m 'onerr' z ;; k" := (andThen m z (fun x r => k))
  (at level 10, x name, r name, m at level 100, z at level 100,
   k at level 200).

(** [return f(r)] in a function whose result type is [Term]. *)
Definition asTerm {A : Type} (inj : A -> Value) (m : Res A) : Res Value :=
  match m with
  | Ret a err r => Ret (inj a) err r
  | Panic => Panic
  | OutOfFuel => OutOfFuel
  end.

Definition read1 (r : Reader) : Res Z :=
  let (bits, err) := ReadAll (LimitReader r 1) in
  let r' := advance r 1 in
  match err with
  | Some e => Ret 0 (Some e) r'
  | None =>
      match bits with
      | b0 :: _ => Ret (byte.unsigned (uint8 (byte.unsigned b0))) None r'
      | [] => Panic
      end
  end.

(** [binary.BigEndian.Uint16] panics on fewer than two bytes. *)
Definition read2 (r : Reader) : Res Z :=
  let (bits, err) := ReadAll (LimitReader r 2) in
  let r' := advance r 2 in
  match err with
  | Some e => Ret 0 (Some e) r'
  | None =>
      match bits with
      | b0 :: b1 :: _ =>
          Ret (Z.lor (byte.unsigned b1) (Z.shiftl (byte.unsigned b0) 8)) None r'
      | _ => Panic
      end
  end.

(** [binary.BigEndian.Uint32] panics on fewer than four bytes; the result
    goes through [int32]. *)
Definition read4 (r : Reader) : Res Z :=
  let (bits, err) := ReadAll (LimitReader r 4) in
  let r' := advance r 4 in
  match err with
  | Some e => Ret 0 (Some e) r'
  | None =>
      match bits with
      | b0 :: b1 :: b2 :: b3 :: _ =>
          let ui32 :=
            Z.lor (Z.lor (Z.lor (byte.unsigned b3)
                                (Z.shiftl (byte.unsigned b2) 8))
                         (Z.shiftl (byte.unsigned b1) 16))
                  (Z.shiftl (byte.unsigned b0) 24) in
          Ret (int32 ui32) None r'
      | _ => Panic
      end
  end.

Definition readSmallInt (r : Reader) : Res Z := read1 r.

Definition readInt (r : Reader) : Res Z := read4 r.

(** The scan for the first zero byte: [bits[0:i]]. *)
Fixpoint until_zero (bits : list byte) : list byte :=
  match bits with
  | [] => []
  | b :: rest => if Byte.eqb b Byte.x00 then [] else b :: until_zero rest
  end.

Definition readFloat (r : Reader) : Res float32 :=
  let (bits, err) := ReadAll (LimitReader r 31) in
  let r' := advance r 31 in
  match err with
  | Some e => Ret float_zero (Some e) r'
  | None =>
      match parseFloat (until_zero bits) with
      | None => Ret float_zero (Some ErrSyntax) r'
      | Some f => Ret f None r'
      end
  end.

Definition readString (r : Reader) : Res (list byte) :=
  got size, r1 <-- read2 r onerr [] ;;
  let (str, err) := ReadAll (LimitReader r1 size) in
  let r2 := advance r1 size in
  match err with
  | Some e => Ret [] (Some e) r2
  | None => Ret str None r2
  end.

(** [Atom(str), err]: the conversion is applied by the caller's [asTerm]. *)
Definition readAtom (r : Reader) : Res (list byte) := readString r.

(** [readNil] reads one more byte after the tag and drops it. *)
Definition readNil (r : Reader) : Res (list Value) :=
  let (_, err) := ReadAll (LimitReader r 1) in
  let r' := advance r 1 in
  match err with
  | Some e => Ret [] (Some e) r'
  | None => Ret [] None r'
  end.

Definition readBin (r : Reader) : Res (list byte) :=
  got size, r1 <-- read4 r onerr [] ;;
  let (bytes, err) := ReadAll (LimitReader r1 size) in
  let r2 := advance r1 size in
  match err with
  | Some e => Ret [] (Some e) r2
  | None => Ret bytes None r2
  end.

Definition readBit (r : Reader) : Res Value :=
  got size, r1 <-- read4 r onerr (VBitstring [] 0) ;;
  got bits, r2 <-- read1 r1 onerr (VBitstring [] 0) ;;
  let (bytes, err) := ReadAll (LimitReader r2 size) in
  let r3 := advance r2 size in
  match err with
  | Some e => Ret (VBitstring [] 0) (Some e) r3
  | None => Ret (VBitstring bytes (byte.unsigned (uint8 bits))) None r3
  end.

Definition isAtom (name : list byte) (term : Value) : bool :=
  match term with
  | VAtom a => bytes_eqb a name
  | _ => false
  end.

Definition readComplex (readTag : Reader -> Res Value) (r : Reader)
  : Res Value :=
  match readTag r with
  | Ret term (Some e) r' => Ret term (Some e) r'
  | Ret term None r' =>
      if isAtom NilAtom term then Ret VNil None r'
      else if isAtom TrueAtom term then Ret (VBool true) None r'
      else if isAtom FalseAtom term then Ret (VBool false) None r'
      else Ret term None r'
  | Panic => Panic
  | OutOfFuel => OutOfFuel
  end.

(** The loop of [readSmallTuple]: [tuple] holds the elements stored so
    far, [n] counts the iterations left. *)
Fixpoint tupleLoop (readTag : Reader -> Res Value) (n : nat)
  (tuple : list Value) (r : Reader) : Res Value :=
  match n with
  | O => Ret (VSlice tuple) None r
  | S n' =>
      match readTag r with
      | Ret _ (Some e) r' => Ret VNil (Some e) r'
      | Ret term None r' =>
          if isAtom BertAtom term then readComplex readTag r'
          else tupleLoop readTag n' (tuple ++ [term]) r'
      | Panic => Panic
      | OutOfFuel => OutOfFuel
      end
  end.

Definition readSmallTuple (readTag : Reader -> Res Value) (r : Reader)
  : Res Value :=
  got size, r1 <-- read1 r onerr VNil ;;
  tupleLoop readTag (Z.to_nat size) [] r1.

(** The loop of [readList]. *)
Fixpoint listLoop (readTag : Reader -> Res Value) (n : nat)
  (elems : list Value) (r : Reader) : Res (list Value) :=
  match n with
  | O => Ret elems None r
  | S n' =>
      match readTag r with
      | Ret _ (Some e) r' => Ret [] (Some e) r'
      | Ret term None r' => listLoop readTag n' (elems ++ [term]) r'
      | Panic => Panic
      | OutOfFuel => OutOfFuel
      end
  end.

(** [make([]Term, size)] panics on a negative size; the closing [read1]
    has its result dropped but can still panic. *)
Definition readList (readTag : Reader -> Res Value) (r : Reader)
  : Res (list Value) :=
  got size, r1 <-- read4 r onerr [] ;;
  if size <? 0 then Panic
  else
    got elems, r2 <-- listLoop readTag (Z.to_nat size) [] r1 onerr [] ;;
    match read1 r2 with
    | Ret _ _ r3 => Ret elems None r3
    | Panic => Panic
    | OutOfFuel => OutOfFuel
    end.

Fixpoint readTag (fuel : nat) (r : Reader) : Res Value :=
  match fuel with
  | O => OutOfFuel
  | S fuel' =>
      got tag, r1 <-- read1 r onerr VNil ;;
      if tag =? SmallIntTag then asTerm VInt (readSmallInt r1)
      else if tag =? IntTag then asTerm VInt (readInt r1)
      else if tag =? SmallBignumTag then Ret VNil (Some ErrUnknownType) r1
      else if tag =? LargeBignumTag then Ret VNil (Some ErrUnknownType) r1
      else if tag =? FloatTag then asTerm VFloat (readFloat r1)
      else if tag =? AtomTag then asTerm VAtom (readAtom r1)
      else if tag =? SmallTupleTag then readSmallTuple (readTag fuel') r1
      else if tag =? LargeTupleTag then Ret VNil (Some ErrUnknownType) r1
      else if tag =? NilTag then asTerm VSlice (readNil r1)
      else if tag =? StringTag then asTerm VString (readString r1)
      else if tag =? ListTag then asTerm VSlice (readList (readTag fuel') r1)
      else if tag =? BinTag then asTerm VBytes (readBin r1)
      else if tag =? BitTag then readBit r1
      else Ret VNil (Some ErrUnknownType) r1
  end.

(** A term nests no deeper than the bytes left to read. *)
Definition readTerm (r : Reader) : Res Value :=
  readTag (S (length (pending r))) r.

Definition DecodeFrom (r : Reader) : Res Value :=
  got version, r1 <-- read1 r onerr VNil ;;
  if negb (version =? VersionTag) then Ret VNil (Some ErrBadMagic) r1
  else readTerm r1.

Definition Decode (data : list byte) : Res Value := DecodeFrom (NewBuffer data).

(** ** decode.go: binding a decoded term to a record

    [val] points to a value of type [S]; [isStruct] is its
    [reflect.Kind], and [setField i e s] is [v.Field(i).Set(e)]: [None]
    when reflect panics (no field [i], or [e] not assignable to it). *)
Class Settable (S : Type) : Type := {
  isStruct : bool;
  setField : nat -> Value -> S -> option S
}.

(** [slice.Len()]: defined on slices and strings, a panic elsewhere (also
    on the invalid value that [reflect.ValueOf(nil)] is). *)
Definition reflectLen (slice : Value) : option nat :=
  match slice with
  | VSlice t => Some (length t)
  | VString s => Some (length s)
  | VAtom a => Some (length a)
  | VBytes b => Some (length b)
  | _ => None
  end.

(** [slice.Index(i).Elem()]: the dynamic value of element [i] of a
    [[]Term]; on a byte of a string or of a [[]byte], [Elem] panics. *)
Definition indexElem (slice : Value) (i : nat) : option Value :=
  match slice with
  | VSlice t => nth_error t i
  | _ => None
  end.

(** The loop [for i := 0; i < slice.Len(); i++]. *)
Fixpoint bindLoop {S : Type} `{Settable S} (slice : Value) (i n : nat)
  (v : S) : option S :=
  match n with
  | O => Some v
  | S n' =>
      match indexElem slice i with
      | None => None
      | Some e =>
          match setField i e v with
          | None => None
          | Some v' => bindLoop slice (Datatypes.S i) n' v'
          end
      end
  end.

(** The error of [DecodeFrom] is dropped, and [nil] is what is returned. *)
Definition UnmarshalFrom {S : Type} `{Settable S} (r : Reader) (val : S)
  : Res S :=
  match DecodeFrom r with
  | Ret result _ r' =>
      if isStruct then
        match reflectLen result with
        | None => Panic
        | Some n =>
            match bindLoop result 0 n val with
            | None => Panic
            | Some val' => Ret val' None r'
            end
        end
      else Ret val None r'
  | Panic => Panic
  | OutOfFuel => OutOfFuel
  end.

Definition Unmarshal {S : Type} `{Settable S} (data : list byte) (val : S)
  : Res S :=
  UnmarshalFrom (NewBuffer data) val.

Record Request : Type := mkRequest {
  Kind : list byte;
  Module : list byte;
  Function : list byte;
  Arguments : list Value
}.

(** [var req Request] *)
Definition zeroRequest : Request := mkRequest [] [] [] [].

(** Assignment to the fields of a [Request]: three of type [Atom], one of
    type [[]Term]; a value of any other dynamic type is refused. *)
Definition setRequestField (i : nat) (e : Value) (req : Request)
  : option Request :=
  match i, e with
  | 0%nat, VAtom a =>
      Some (mkRequest a (Module req) (Function req) (Arguments req))
  | 1%nat, VAtom a =>
      Some (mkRequest (Kind req) a (Function req) (Arguments req))
  | 2%nat, VAtom a =>
      Some (mkRequest (Kind req) (Module req) a (Arguments req))
  | 3%nat, VSlice t =>
      Some (mkRequest (Kind req) (Module req) (Function req) t)
  | _, _ => None
  end.

#[export] Instance Request_Settable : Settable Request := {
  isStruct := true;
  setField := setRequestField
}.

(** A target that is not a struct, such as [*int]. *)
#[export] Instance Z_Settable : Settable Z := {
  isStruct := false;
  setField := fun _ _ _ => None
}.

Definition UnmarshalRequest (r : Reader) : Res Request :=
  let req := zeroRequest in
  got size, r1 <-- read4 r onerr req ;;
  let limited := LimitReader r1 size in
  match UnmarshalFrom limited req with
  | Ret req' err rest =>
      Ret req' err (advance r1 (len (pending limited) - len (pending rest)))
  | Panic => Panic
  | OutOfFuel => OutOfFuel
  end.

(** ** Notions used to state the properties *)

(** The number a little-endian byte sequence stands for. *)
Fixpoint le_value (l : list byte) : Z :=
  match l with
  | [] => 0
  | b :: rest => byte.unsigned b + 256 * le_value rest
  end.

Definition All {A : Type} (P : A -> Prop) : list A -> Prop :=
  fix all (l : list A) : Prop :=
    match l with
    | [] => True
    | x :: rest => P x /\ all rest
    end.

(** What the decoder can give back for an encoded value: it has one
    sequence type, [[]Term], for tuples and lists alike. *)
Fixpoint normalise (v : Value) : Value :=
  match v with
  | VSlice t => VSlice (map normalise t)
  | VArray l => VSlice (map normalise l)
  | VList items => VSlice (map normalise items)
  | _ => v
  end.


(** A float whose text fits the 31-byte field, holds no zero byte and
    parses back to the float. *)
Definition float_exact (f : float32) : Prop :=
  len (formatFloat f) <= 31 /\
  until_zero (formatFloat f) = formatFloat f /\
  parseFloat (formatFloat f) = Some f.

(** The values for which decoding undoes encoding. *)
Fixpoint representable (v : Value) : Prop :=
  match v with
  | VInt n => -2147483648 <= n <= 2147483647
  | VFloat f => float_exact f
  | VAtom a => len a < 65536
  | VString s => len s < 65536
  | VBytes b => len b < 2147483648
  | VBitstring bytes bits => length bytes = 1%nat /\ 1 <= bits <= 7
  | VSlice t =>
      len t <= 255 /\
      All (fun x => representable x /\ isAtom BertAtom x = false) t
  | VArray l => len l < 2147483648 /\ All representable l
  | VList items => len items < 2147483648 /\ All representable items
  | _ => False
  end.



Definition leaf (v : Value) : Prop :=
  match v with
  | VSlice _ | VArray _ | VList _ => False
  | _ => True
  end.

(** The property carried through the induction: a value encodes without
    error, and any reader with enough fuel reads the value back from the
    front of the stream, leaving the rest. *)
Definition reads_back (x : Value) : Prop :=
  status (writeTag x) = Done /\
  forall (fuel : nat) (rest : list byte) (e : option Error),
    (length (emitted (writeTag x)) < fuel)%nat ->
    readTag fuel (mkReader (emitted (writeTag x) ++ rest) e)
    = Ret (normalise x) None (mkReader rest e).

Definition encodings (t : list Value) : list byte :=
  concat (map (fun x => emitted (writeTag x)) t).

Definition dispatch (readTag : Reader -> Res Value) (tag : Z) (r1 : Reader)
  : Res Value :=
  if tag =? SmallIntTag then asTerm VInt (readSmallInt r1)
  else if tag =? IntTag then asTerm VInt (readInt r1)
  else if tag =? SmallBignumTag then Ret VNil (Some ErrUnknownType) r1
  else if tag =? LargeBignumTag then Ret VNil (Some ErrUnknownType) r1
  else if tag =? FloatTag then asTerm VFloat (readFloat r1)
  else if tag =? AtomTag then asTerm VAtom (readAtom r1)
  else if tag =? SmallTupleTag then readSmallTuple readTag r1
  else if tag =? LargeTupleTag then Ret VNil (Some ErrUnknownType) r1
  else if tag =? NilTag then asTerm VSlice (readNil r1)
  else if tag =? StringTag then asTerm VString (readString r1)
  else if tag =? ListTag then asTerm VSlice (readList readTag r1)
  else if tag =? BinTag then asTerm VBytes (readBin r1)
  else if tag =? BitTag then readBit r1
  else Ret VNil (Some ErrUnknownType) r1.

Definition remaining (r : Reader) : nat := length (pending r).

(** A reading function never hands back a longer stream. *)
Definition shrinks {A : Type} (rd : Reader -> Res A) : Prop :=
  forall r a e r', rd r = Ret a e r' -> (remaining r' <= remaining r)%nat.

(** Two element readers that agree on streams shorter than [k]. *)
Definition agree (k : nat) (rd1 rd2 : Reader -> Res Value) : Prop :=
  forall r, (remaining r < k)%nat -> rd1 r = rd2 r.

(** An element reader that has fuel enough for streams shorter than [k]. *)
Definition fed (k : nat) {A : Type} (rd : Reader -> Res A) : Prop :=
  forall r, (remaining r < k)%nat -> rd r <> OutOfFuel.

(** [reports_no_error m]: [m] did not return a non-nil error. *)
Definition reports_no_error {A : Type} (m : Res A) : Prop :=
  match m with
  | Ret _ (Some _) _ => False
  | _ => True
  end.

(** The errors the decoder raises by itself: none of them says that the
    input ended early. *)
Definition own_error (e : option Error) : Prop :=
  match e with
  | None | Some ErrBadMagic | Some ErrUnknownType | Some ErrSyntax => True
  | Some ErrUintType | Some (ErrIO _) => False
  end.

(** A reading function that, on a stream ending in end of file, returns
    no error but the decoder's own. *)
Definition quiet {A : Type} (rd : Reader -> Res A) : Prop :=
  forall r, ending r = None ->
    match rd r with
    | Ret _ e r' => own_error e /\ ending r' = None
    | _ => True
    end.

(** ** Notions used by the further properties *)

(** The tags [readTag] has a reader for. *)
Definition supportedTag (tag : Z) : bool :=
  (tag =? SmallIntTag) || (tag =? IntTag) || (tag =? FloatTag) ||
  (tag =? AtomTag) || (tag =? SmallTupleTag) || (tag =? NilTag) ||
  (tag =? StringTag) || (tag =? ListTag) || (tag =? BinTag) ||
  (tag =? BitTag).

(** The tags [writeTag] can put in front of a value. *)
Definition writtenTag (tag : Z) : bool :=
  supportedTag tag || (tag =? SmallBignumTag).

(** The values the decoder builds: integers of 32 bits, atoms and strings
    within a 2-byte length, bit counts of one byte, and sequences of such
    values. *)
Fixpoint decoded_shape (v : Value) : Prop :=
  match v with
  | VNil | VBool _ | VFloat _ | VBytes _ => True
  | VInt n => -2147483648 <= n <= 2147483647
  | VString s => len s <= 65535
  | VAtom a => len a <= 65535
  | VBitstring _ bits => 0 <= bits <= 255
  | VSlice t => All decoded_shape t
  | VUint _ | VArray _ | VList _ | VBigInt _ | VOther => False
  end.

(** A reader all of whose results, with or without an error, have a given
    property. *)
Definition yields {A : Type} (P : A -> Prop) (rd : Reader -> Res A) : Prop :=
  forall r, match rd r with
            | Ret a _ _ => P a
            | _ => True
            end.

(** The encoder without big numbers.
    The package holds a second copy of the encoder.  Its [write1] to
    [writeList] are those above; [writeBitstring] and [writeTag] differ:
    no padding and no rerouting of bitstrings, integers cut to 32 bits,
    unsigned integers refused, no [big.Int].  This [writeTag] does not
    dereference: a value stands for itself here, not for a pointer to
    it. *)
Definition writeBitstring' (a : list byte) (bits : Z) : list byte :=
  write1 (uint8 BitTag) ++ write4 (uint32 (len a)) ++ write1 (uint8 bits) ++ a.

Fixpoint writeTag' (val : Value) : Emit :=
  match val with
  | VInt n =>
      if (n >=? 0) && (n <? 256) then (writeSmallInt (uint8 n), Done)
      else (writeInt (uint32 n), Done)
  | VUint _ => ([], Failed ErrUintType)
  | VFloat f => writeFloat f
  | VAtom a => (writeAtom a, Done)
  | VString s => (writeString s, Done)
  | VBytes b => (writeBinary b, Done)
  | VSlice t => writeSmallTuple writeTag' t
  | VArray l => writeList writeTag' l
  | VBitstring bytes bits => (writeBitstring' bytes bits, Done)
  | VList items => writeList writeTag' items
  | VBigInt _ => ([], Failed ErrUnknownType)
  | VNil => (writeNil, Done)
  | VBool _ => ([], Failed ErrUnknownType)
  | VOther => ([], Failed ErrUnknownType)
  end.

Definition EncodeTo' (val : Value) : Emit :=
  let (out, st) := writeTag' val in
  (write1 (uint8 VersionTag) ++ out, st).

Definition Encode' (val : Value) : Emit := EncodeTo' val.


(** * Properties *)

(** ** Bytes and fixed-width integers *)

Lemma unsigned_of_Z_small (z : Z) :
  0 <= z < 256 -> byte.unsigned (byte.of_Z z) = z.
Proof.
  intros Hz. rewrite byte.unsigned_of_Z. unfold byte.wrap.
  apply Z.mod_small. lia.
Qed.

Lemma unsigned_of_Z_mod (z : Z) : byte.unsigned (byte.of_Z z) = z mod 256.
Proof. rewrite byte.unsigned_of_Z. reflexivity. Qed.

Lemma uint8_unsigned (b : byte) : byte.unsigned (uint8 (byte.unsigned b)) = byte.unsigned b.
Proof. unfold uint8. rewrite byte.of_Z_unsigned. reflexivity. Qed.

Lemma byte_range (b : byte) : 0 <= byte.unsigned b < 256.
Proof. pose proof (byte.unsigned_range b) as H. simpl in H. lia. Qed.

Lemma lor_shiftl_add (a b k : Z) :
  0 <= k -> 0 <= a < 2 ^ k -> Z.lor a (Z.shiftl b k) = a + b * 2 ^ k.
Proof.
  intros Hk Ha.
  rewrite Z.shiftl_mul_pow2 by assumption.
  rewrite <- Z.lxor_lor.
  - symmetry. apply Z.add_nocarry_lxor.
    apply Z.bits_inj'. intros i Hi. rewrite Z.land_spec, Z.bits_0.
    destruct (Z.lt_ge_cases i k) as [Hlt | Hge].
    + rewrite Z.mul_pow2_bits_low by assumption. apply andb_false_r.
    + replace (Z.testbit a i) with false; [reflexivity|].
      symmetry. destruct (Z.eq_dec a 0) as [-> | Hne]; [apply Z.bits_0|].
      apply Z.bits_above_log2; [lia|].
      apply Z.lt_le_trans with k; [|assumption].
      apply Z.log2_lt_pow2; lia.
  - apply Z.bits_inj'. intros i Hi. rewrite Z.land_spec, Z.bits_0.
    destruct (Z.lt_ge_cases i k) as [Hlt | Hge].
    + rewrite Z.mul_pow2_bits_low by assumption. apply andb_false_r.
    + replace (Z.testbit a i) with false; [reflexivity|].
      symmetry. destruct (Z.eq_dec a 0) as [-> | Hne]; [apply Z.bits_0|].
      apply Z.bits_above_log2; [lia|].
      apply Z.lt_le_trans with k; [|assumption].
      apply Z.log2_lt_pow2; lia.
Qed.

Lemma be16_value (b0 b1 : byte) :
  Z.lor (byte.unsigned b1) (Z.shiftl (byte.unsigned b0) 8)
  = byte.unsigned b1 + 256 * byte.unsigned b0.
Proof.
  pose proof (byte_range b1).
  rewrite lor_shiftl_add by (simpl; lia). change (2 ^ 8) with 256. lia.
Qed.

Lemma be32_value (b0 b1 b2 b3 : byte) :
  Z.lor (Z.lor (Z.lor (byte.unsigned b3) (Z.shiftl (byte.unsigned b2) 8))
               (Z.shiftl (byte.unsigned b1) 16))
        (Z.shiftl (byte.unsigned b0) 24)
  = byte.unsigned b3 + 256 * byte.unsigned b2 + 65536 * byte.unsigned b1
    + 16777216 * byte.unsigned b0.
Proof.
  pose proof (byte_range b0). pose proof (byte_range b1).
  pose proof (byte_range b2). pose proof (byte_range b3).
  rewrite (lor_shiftl_add (byte.unsigned b3)) by (simpl; lia).
  rewrite (lor_shiftl_add _ (byte.unsigned b1)) by (simpl; lia).
  rewrite (lor_shiftl_add _ (byte.unsigned b0)) by (simpl; lia).
  change (2 ^ 8) with 256. change (2 ^ 16) with 65536.
  change (2 ^ 24) with 16777216. lia.
Qed.

Lemma write2_value (n : Z) :
  0 <= n < 65536 ->
  exists b0 b1, write2 n = [b0; b1] /\
    byte.unsigned b1 + 256 * byte.unsigned b0 = n.
Proof.
  intros Hn. unfold write2. do 2 eexists. split; [reflexivity|].
  rewrite !unsigned_of_Z_mod, Z.shiftr_div_pow2 by lia.
  change (2 ^ 8) with 256.
  Z.div_mod_to_equations. lia.
Qed.

Lemma write4_value (n : Z) :
  0 <= n < 4294967296 ->
  exists b0 b1 b2 b3, write4 n = [b0; b1; b2; b3] /\
    byte.unsigned b3 + 256 * byte.unsigned b2 + 65536 * byte.unsigned b1
    + 16777216 * byte.unsigned b0 = n.
Proof.
  intros Hn. unfold write4. do 4 eexists. split; [reflexivity|].
  rewrite !unsigned_of_Z_mod, !Z.shiftr_div_pow2 by lia.
  change (2 ^ 8) with 256. change (2 ^ 16) with 65536.
  change (2 ^ 24) with 16777216.
  Z.div_mod_to_equations. lia.
Qed.

(** ** Reading back what was written *)

Lemma len_app {A : Type} (a b : list A) : len (a ++ b) = len a + len b.
Proof. unfold len. rewrite length_app. lia. Qed.

Lemma len_nonneg {A : Type} (a : list A) : 0 <= len a.
Proof. unfold len. lia. Qed.

Lemma read_exact (s rest : list byte) (e : option Error) (n : Z) :
  n = len s ->
  ReadAll (LimitReader (mkReader (s ++ rest) e) n) = (s, None) /\
  advance (mkReader (s ++ rest) e) n = mkReader rest e.
Proof.
  intros ->. unfold ReadAll, LimitReader, advance. simpl pending.
  replace (len s <=? len (s ++ rest)) with true.
  2:{ symmetry. apply Z.leb_le. rewrite len_app. pose proof (len_nonneg rest). lia. }
  unfold len. rewrite Nat2Z.id. simpl.
  rewrite firstn_app, Nat.sub_diag, firstn_all, skipn_app, Nat.sub_diag, skipn_all.
  simpl. rewrite app_nil_r. auto.
Qed.

Lemma read1_cons (b : byte) (rest : list byte) (e : option Error) :
  read1 (mkReader (b :: rest) e) = Ret (byte.unsigned b) None (mkReader rest e).
Proof.
  unfold read1.
  destruct (read_exact [b] rest e 1 eq_refl) as [Hr Ha].
  simpl app in Hr, Ha. rewrite Hr, Ha. rewrite uint8_unsigned. reflexivity.
Qed.

Lemma read2_write2 (n : Z) (rest : list byte) (e : option Error) :
  0 <= n < 65536 ->
  read2 (mkReader (write2 n ++ rest) e) = Ret n None (mkReader rest e).
Proof.
  intros Hn. destruct (write2_value n Hn) as (b0 & b1 & Hw & Hv).
  rewrite Hw. unfold read2.
  destruct (read_exact [b0; b1] rest e 2 eq_refl) as [Hr Ha].
  rewrite Hr, Ha. rewrite be16_value, Hv. reflexivity.
Qed.

Lemma int32_uint32 (n : Z) :
  -2147483648 <= n <= 2147483647 -> int32 (uint32 n) = n.
Proof.
  intros Hn. unfold int32, uint32.
  change (2 ^ 32) with 4294967296. change (2 ^ 31) with 2147483648.
  destruct (Z.ltb_spec (n mod 4294967296) 2147483648);
    Z.div_mod_to_equations; lia.
Qed.

Lemma uint32_range (n : Z) : 0 <= uint32 n < 4294967296.
Proof. unfold uint32. change (2 ^ 32) with 4294967296. apply Z.mod_pos_bound. lia. Qed.

Lemma uint16_small (n : Z) : 0 <= n < 65536 -> uint16 n = n.
Proof. intros. unfold uint16. apply Z.mod_small. simpl. lia. Qed.

Lemma read4_write4 (n : Z) (rest : list byte) (e : option Error) :
  -2147483648 <= n <= 2147483647 ->
  read4 (mkReader (write4 (uint32 n) ++ rest) e) = Ret n None (mkReader rest e).
Proof.
  intros Hn.
  destruct (write4_value (uint32 n) (uint32_range n)) as (b0 & b1 & b2 & b3 & Hw & Hv).
  rewrite Hw. unfold read4.
  destruct (read_exact [b0; b1; b2; b3] rest e 4 eq_refl) as [Hr Ha].
  rewrite Hr, Ha. rewrite be32_value, Hv, int32_uint32 by assumption.
  reflexivity.
Qed.

Lemma readString_payload (s rest : list byte) (e : option Error) :
  len s < 65536 ->
  readString (mkReader (write2 (uint16 (len s)) ++ s ++ rest) e)
  = Ret s None (mkReader rest e).
Proof.
  intros Hs. pose proof (len_nonneg s).
  unfold readString. rewrite uint16_small by lia.
  rewrite read2_write2 by lia. unfold andThen.
  destruct (read_exact s rest e (len s) eq_refl) as [Hr Ha].
  rewrite Hr, Ha. reflexivity.
Qed.

Lemma readBin_payload (b rest : list byte) (e : option Error) :
  len b < 2147483648 ->
  readBin (mkReader (write4 (uint32 (len b)) ++ b ++ rest) e)
  = Ret b None (mkReader rest e).
Proof.
  intros Hb. pose proof (len_nonneg b).
  unfold readBin. rewrite read4_write4 by lia. unfold andThen.
  destruct (read_exact b rest e (len b) eq_refl) as [Hr Ha].
  rewrite Hr, Ha. reflexivity.
Qed.

Lemma until_zero_padding (s : list byte) (k : nat) :
  until_zero s = s -> until_zero (s ++ repeat Byte.x00 k) = s.
Proof.
  induction s as [|b s IH]; simpl.
  - intros _. destruct k; reflexivity.
  - destruct (Byte.eqb b Byte.x00); [discriminate|].
    intros H. injection H as H. rewrite IH by assumption. reflexivity.
Qed.

Lemma readFloat_text (f : float32) (rest : list byte) (e : option Error) :
  float_exact f ->
  readFloat (mkReader ((formatFloat f ++ repeat Byte.x00 (Z.to_nat (31 - len (formatFloat f)))) ++ rest) e)
  = Ret f None (mkReader rest e).
Proof.
  intros (Hlen & Hz & Hp). unfold readFloat.
  destruct (read_exact (formatFloat f ++ repeat Byte.x00 (Z.to_nat (31 - len (formatFloat f)))) rest e 31) as [Hr Ha].
  { rewrite len_app. unfold len at 2. rewrite repeat_length.
    pose proof (len_nonneg (formatFloat f)). lia. }
  rewrite Hr, Ha, until_zero_padding, Hp by assumption. reflexivity.
Qed.

(** ** Induction on values, through the element lists *)

Lemma Value_nested_ind (P : Value -> Prop) :
  (forall t, All P t -> P (VSlice t)) ->
  (forall l, All P l -> P (VArray l)) ->
  (forall items, All P items -> P (VList items)) ->
  (forall v, leaf v -> P v) ->
  forall v, P v.
Proof.
  intros Hs Ha Hl Hleaf.
  exact (fix IH (v : Value) : P v :=
    let all := fix all (l : list Value) : All P l :=
      match l with
      | [] => I
      | x :: rest => conj (IH x) (all rest)
      end in
    match v as v0 return P v0 with
    | VSlice t => Hs t (all t)
    | VArray l => Ha l (all l)
    | VList items => Hl items (all items)
    | v' => Hleaf v' I
    end).
Qed.

Lemma All_impl {A : Type} (P Q : A -> Prop) (l : list A) :
  (forall x, P x -> Q x) -> All P l -> All Q l.
Proof. intros H. induction l as [|x l IH]; simpl; [auto|]. intros [Hx Hl]. auto. Qed.

Lemma All_conj {A : Type} (P Q : A -> Prop) (l : list A) :
  All P l -> All Q l -> All (fun x => P x /\ Q x) l.
Proof. induction l as [|x l IH]; simpl; [auto|]. intros [Hx Hl] [Hx' Hl']. auto. Qed.

(** ** The tag dispatch *)

Lemma readTag_tagged (fuel : nat) (tag : Z) (rest : list byte) (e : option Error) :
  0 <= tag < 256 ->
  readTag (S fuel) (mkReader (write1 (uint8 tag) ++ rest) e) =
  let r1 := mkReader rest e in
  if tag =? SmallIntTag then asTerm VInt (readSmallInt r1)
  else if tag =? IntTag then asTerm VInt (readInt r1)
  else if tag =? SmallBignumTag then Ret VNil (Some ErrUnknownType) r1
  else if tag =? LargeBignumTag then Ret VNil (Some ErrUnknownType) r1
  else if tag =? FloatTag then asTerm VFloat (readFloat r1)
  else if tag =? AtomTag then asTerm VAtom (readAtom r1)
  else if tag =? SmallTupleTag then readSmallTuple (readTag fuel) r1
  else if tag =? LargeTupleTag then Ret VNil (Some ErrUnknownType) r1
  else if tag =? NilTag then asTerm VSlice (readNil r1)
  else if tag =? StringTag then asTerm VString (readString r1)
  else if tag =? ListTag then asTerm VSlice (readList (readTag fuel) r1)
  else if tag =? BinTag then asTerm VBytes (readBin r1)
  else if tag =? BitTag then readBit r1
  else Ret VNil (Some ErrUnknownType) r1.
Proof.
  intros Ht. cbn [readTag]. change (write1 (uint8 tag) ++ rest) with (uint8 tag :: rest). rewrite read1_cons. unfold andThen, uint8.
  rewrite unsigned_of_Z_small by assumption. reflexivity.
Qed.

Lemma writeEach_done (t : list Value) :
  All (fun x => status (writeTag x) = Done) t ->
  writeEach writeTag t = (concat (map (fun x => emitted (writeTag x)) t), Done).
Proof.
  induction t as [|x t IH]; simpl; [reflexivity|].
  intros [Hx Ht]. destruct (writeTag x) as [out st]. simpl in Hx. subst st.
  rewrite IH by assumption. reflexivity.
Qed.

Lemma isAtom_normalise (name : list byte) (x : Value) :
  isAtom name (normalise x) = isAtom name x.
Proof. destruct x; reflexivity. Qed.

Lemma readTag_number (n : Z) (fuel : nat) (rest : list byte) (e : option Error) :
  -2147483648 <= n <= 2147483647 ->
  readTag (S fuel) (mkReader (writeNumber n ++ rest) e)
  = Ret (VInt n) None (mkReader rest e).
Proof.
  intros Hn. unfold writeNumber, IsInt64.
  replace ((- 2 ^ 63 <=? n) && (n <? 2 ^ 63)) with true
    by (symmetry; apply andb_true_iff; split; [apply Z.leb_le | apply Z.ltb_lt]; lia).
  cbv zeta.
  destruct ((n >=? 0) && (n <? 256)) eqn:Hsmall.
  - apply andb_true_iff in Hsmall. destruct Hsmall as [H0 H1].
    apply Z.geb_le in H0. apply Z.ltb_lt in H1.
    unfold writeSmallInt. rewrite <- app_assoc.
    rewrite readTag_tagged by (unfold SmallIntTag; lia).
    change (SmallIntTag =? SmallIntTag) with true. cbv iota zeta.
    unfold readSmallInt, write1 at 1. simpl app. rewrite read1_cons. unfold asTerm, uint8.
    rewrite unsigned_of_Z_small by lia. reflexivity.
  - replace ((n >=? -2147483648) && (n <=? 2147483647)) with true
      by (symmetry; apply andb_true_iff; split; [apply Z.geb_le | apply Z.leb_le]; lia).
    unfold writeInt. rewrite <- app_assoc.
    rewrite readTag_tagged by (unfold IntTag; lia).
    change (IntTag =? SmallIntTag) with false.
    change (IntTag =? IntTag) with true. cbv iota zeta.
    unfold readInt. rewrite read4_write4 by assumption. reflexivity.
Qed.

Lemma tupleLoop_reads_back (fuel : nat) (rest : list byte) (e : option Error)
  (t : list Value) :
  All (fun x => reads_back x /\ isAtom BertAtom x = false) t ->
  (length (encodings t) < fuel)%nat ->
  forall tuple,
  tupleLoop (readTag fuel) (length t) tuple (mkReader (encodings t ++ rest) e)
  = Ret (VSlice (tuple ++ map normalise t)) None (mkReader rest e).
Proof.
  induction t as [|x t IH]; intros Hall Hfuel tuple.
  - simpl. rewrite app_nil_r. reflexivity.
  - destruct Hall as [[[_ Hx] Hbert] Ht].
    unfold encodings in *. simpl map in *. simpl concat in *.
    rewrite length_app in Hfuel.
    cbn [length tupleLoop]. rewrite <- app_assoc, Hx by lia.
    rewrite isAtom_normalise, Hbert, IH by (assumption || lia).
    rewrite <- app_assoc. reflexivity.
Qed.

Lemma listLoop_reads_back (fuel : nat) (rest : list byte) (e : option Error)
  (l : list Value) :
  All reads_back l ->
  (length (encodings l) < fuel)%nat ->
  forall elems,
  listLoop (readTag fuel) (length l) elems (mkReader (encodings l ++ rest) e)
  = Ret (elems ++ map normalise l) None (mkReader rest e).
Proof.
  induction l as [|x l IH]; intros Hall Hfuel elems.
  - simpl. rewrite app_nil_r. reflexivity.
  - destruct Hall as [[_ Hx] Hl].
    unfold encodings in *. simpl map in *. simpl concat in *.
    rewrite length_app in Hfuel.
    cbn [length listLoop]. rewrite <- app_assoc, Hx by lia.
    rewrite IH by (assumption || lia).
    rewrite <- app_assoc. reflexivity.
Qed.

Lemma All_status (P : Value -> Prop) (t : list Value) :
  All (fun x => reads_back x /\ P x) t ->
  All (fun x => status (writeTag x) = Done) t.
Proof. apply All_impl. intros x [[H _] _]. exact H. Qed.

Lemma writeSmallTuple_done (t : list Value) :
  All (fun x => status (writeTag x) = Done) t ->
  writeTag (VSlice t)
  = (write1 (uint8 SmallTupleTag) ++ write1 (uint8 (len t)) ++ encodings t, Done).
Proof.
  intros H. cbn [writeTag]. unfold writeSmallTuple.
  rewrite writeEach_done by assumption. reflexivity.
Qed.

Lemma writeList_done (l : list Value) :
  All (fun x => status (writeTag x) = Done) l ->
  writeList writeTag l
  = (write1 (uint8 ListTag) ++ write4 (uint32 (len l)) ++ encodings l ++ writeNil, Done).
Proof.
  intros H. unfold writeList.
  rewrite writeEach_done by assumption. rewrite <- !app_assoc. reflexivity.
Qed.

Lemma tuple_reads_back (t : list Value) :
  len t <= 255 ->
  All (fun x => reads_back x /\ isAtom BertAtom x = false) t ->
  reads_back (VSlice t).
Proof.
  intros Hlen Hall. pose proof (len_nonneg t) as Hpos.
  unfold reads_back.
  rewrite writeSmallTuple_done
    by (apply (All_status (fun x => isAtom BertAtom x = false)); assumption).
  split; [reflexivity|]. intros fuel rest e Hfuel. unfold emitted, fst in *.
  destruct fuel as [|fuel]; [inversion Hfuel|].
  rewrite <- !app_assoc.
  rewrite readTag_tagged by (unfold SmallTupleTag; lia).
  cbv zeta. change (SmallTupleTag =? SmallIntTag) with false.
  change (SmallTupleTag =? IntTag) with false.
  change (SmallTupleTag =? SmallBignumTag) with false.
  change (SmallTupleTag =? LargeBignumTag) with false.
  change (SmallTupleTag =? FloatTag) with false.
  change (SmallTupleTag =? AtomTag) with false.
  change (SmallTupleTag =? SmallTupleTag) with true. cbv iota.
  unfold readSmallTuple. unfold write1 at 1. simpl app at 1.
  rewrite read1_cons. unfold andThen, uint8.
  rewrite unsigned_of_Z_small by lia. unfold len. rewrite Nat2Z.id.
  rewrite !length_app in Hfuel. simpl length in Hfuel.
  rewrite tupleLoop_reads_back by (assumption || lia). reflexivity.
Qed.

Lemma list_reads_back (l : list Value) :
  len l < 2147483648 ->
  All reads_back l ->
  status (writeList writeTag l) = Done /\
  forall (fuel : nat) (rest : list byte) (e : option Error),
    (length (emitted (writeList writeTag l)) < fuel)%nat ->
    readTag fuel (mkReader (emitted (writeList writeTag l) ++ rest) e)
    = Ret (VSlice (map normalise l)) None (mkReader rest e).
Proof.
  intros Hlen Hall. pose proof (len_nonneg l) as Hpos.
  rewrite writeList_done
    by (eapply All_impl; [|eassumption]; intros x [H _]; exact H).
  split; [reflexivity|]. intros fuel rest e Hfuel. unfold emitted, fst in *.
  destruct fuel as [|fuel]; [inversion Hfuel|].
  rewrite <- !app_assoc.
  rewrite readTag_tagged by (unfold ListTag; lia).
  cbv zeta. change (ListTag =? SmallIntTag) with false.
  change (ListTag =? IntTag) with false.
  change (ListTag =? SmallBignumTag) with false.
  change (ListTag =? LargeBignumTag) with false.
  change (ListTag =? FloatTag) with false.
  change (ListTag =? AtomTag) with false.
  change (ListTag =? SmallTupleTag) with false.
  change (ListTag =? LargeTupleTag) with false.
  change (ListTag =? NilTag) with false.
  change (ListTag =? StringTag) with false.
  change (ListTag =? ListTag) with true. cbv iota.
  unfold readList. rewrite read4_write4 by lia. unfold andThen.
  replace (len l <? 0) with false by (symmetry; apply Z.ltb_ge; lia).
  unfold len. rewrite Nat2Z.id.
  rewrite !length_app in Hfuel. simpl length in Hfuel.
  rewrite listLoop_reads_back by (assumption || lia).
  unfold writeNil, write1. simpl app. rewrite read1_cons. reflexivity.
Qed.

Ltac pick_tag T :=
  rewrite readTag_tagged by (unfold T; lia);
  cbv zeta;
  repeat match goal with
         | |- context [T =? ?U] =>
             let b := eval vm_compute in (T =? U) in
             change (T =? U) with b; cbv iota
         end.

Lemma leaf_reads_back (v : Value) : leaf v -> representable v -> reads_back v.
Proof.
  intros Hleaf Hrep. unfold reads_back.
  destruct v as [| b | n | n | f | s | a | b | t | l | bytes bits | items | n |];
    try (exfalso; exact Hleaf); cbn [representable] in Hrep;
    try contradiction;
    cbn [writeTag]; unfold emitted, status, fst, snd.
  - (* VInt *)
    split; [reflexivity|]. intros [|fuel] rest e Hf; [inversion Hf|].
    apply readTag_number. assumption.
  - (* VFloat *)
    pose proof Hrep as (Hlen & _).
    unfold writeFloat.
    replace (31 - len (formatFloat f) <? 0) with false
      by (symmetry; apply Z.ltb_ge; lia).
    cbn [fst snd]. split; [reflexivity|].
    intros [|fuel] rest e Hf; [inversion Hf|].
    rewrite <- app_assoc. pick_tag FloatTag.
    rewrite readFloat_text by assumption. reflexivity.
  - (* VString *)
    split; [reflexivity|]. intros [|fuel] rest e Hf; [inversion Hf|].
    unfold writeString. rewrite <- !app_assoc. pick_tag StringTag.
    rewrite readString_payload by assumption. reflexivity.
  - (* VAtom *)
    split; [reflexivity|]. intros [|fuel] rest e Hf; [inversion Hf|].
    unfold writeAtom. rewrite <- !app_assoc. pick_tag AtomTag.
    unfold readAtom. rewrite readString_payload by assumption. reflexivity.
  - (* VBytes *)
    split; [reflexivity|]. intros [|fuel] rest e Hf; [inversion Hf|].
    unfold writeBinary. rewrite <- !app_assoc. pick_tag BinTag.
    rewrite readBin_payload by assumption. reflexivity.
  - (* VBitstring *)
    destruct Hrep as [Hone Hbits].
    destruct bytes as [|b [|? ?]]; try discriminate.
    assert (Hmod : bits mod 8 = bits) by (apply Z.mod_small; lia).
    assert (Hsize : (bits + 7) / 8 = 1) by (Z.div_mod_to_equations; lia).
    rewrite Hmod.
    replace (negb (bits =? 0)) with true
      by (symmetry; apply negb_true_iff, Z.eqb_neq; lia).
    cbn [fst snd]. split; [reflexivity|].
    intros [|fuel] rest e Hf; [inversion Hf|].
    unfold writeBitstring. rewrite Hsize, Hmod.
    change (firstn (Z.to_nat 1) (pad_left [b] 1)) with [b].
    rewrite <- !app_assoc. pick_tag BitTag.
    unfold readBit. rewrite (read4_write4 1) by lia. unfold andThen.
    unfold write1 at 1. simpl app at 1. rewrite read1_cons.
    destruct (read_exact [b] rest e 1 eq_refl) as [Hr Ha].
    simpl app in Hr, Ha. simpl app. rewrite Hr, Ha.
    unfold uint8. rewrite byte.of_Z_unsigned, unsigned_of_Z_small by lia.
    reflexivity.
Qed.

Lemma All_reads_back (Q : Value -> Prop) (t : list Value) :
  All (fun x => representable x -> reads_back x) t ->
  All (fun x => representable x /\ Q x) t ->
  All (fun x => reads_back x /\ Q x) t.
Proof.
  induction t as [|x t IH]; simpl; [auto|].
  intros [Hx Ht] [[Hr Hq] Ht']. auto.
Qed.

Theorem representable_reads_back (x : Value) : representable x -> reads_back x.
Proof.
  induction x as [t IH | l IH | items IH | v Hleaf] using Value_nested_ind.
  - cbn [representable]. intros [Hlen Hall].
    apply tuple_reads_back; [assumption|].
    apply All_reads_back; assumption.
  - cbn [representable]. intros [Hlen Hall].
    unfold reads_back. cbn [writeTag normalise].
    apply list_reads_back; [assumption|].
    eapply All_impl; [|apply (All_reads_back (fun _ => True)); [exact IH|]].
    + intros x [H _]. exact H.
    + eapply All_impl; [|exact Hall]. auto.
  - cbn [representable]. intros [Hlen Hall].
    unfold reads_back. cbn [writeTag normalise].
    apply list_reads_back; [assumption|].
    eapply All_impl; [|apply (All_reads_back (fun _ => True)); [exact IH|]].
    + intros x [H _]. exact H.
    + eapply All_impl; [|exact Hall]. auto.
  - apply leaf_reads_back. assumption.
Qed.



(** ** Readers only consume *)

Lemma readTag_step (fuel : nat) (r : Reader) :
  readTag (S fuel) r = andThen (read1 r) VNil (dispatch (readTag fuel)).
Proof. reflexivity. Qed.

Lemma advance_remaining (r : Reader) (n : Z) :
  (remaining (advance r n) <= remaining r)%nat.
Proof. unfold remaining, advance. simpl. rewrite length_skipn. lia. Qed.

Lemma read1_consumes (r r' : Reader) (a : Z) :
  read1 r = Ret a None r' -> (remaining r' < remaining r)%nat.
Proof.
  unfold read1, ReadAll, LimitReader, advance, remaining.
  destruct r as [buf e]. simpl pending.
  destruct buf as [|b buf].
  - simpl. destruct e; discriminate.
  - replace (1 <=? len (b :: buf)) with true
      by (symmetry; apply Z.leb_le; unfold len; simpl length; lia).
    simpl. intros H. inversion H. simpl. lia.
Qed.

Ltac shrink_prim :=
  intros r a e r';
  repeat match goal with
         | |- context [ReadAll ?x] => destruct (ReadAll x) as [? [?|]]
         | |- context [match ?l with [] => _ | _ :: _ => _ end] => destruct l
         | |- context [match parseFloat ?l with _ => _ end] => destruct (parseFloat l)
         end;
  intros H; inversion H; subst; apply advance_remaining.

Lemma read1_shrinks : shrinks read1.
Proof. unfold shrinks, read1. shrink_prim. Qed.

Lemma read2_shrinks : shrinks read2.
Proof. unfold shrinks, read2. shrink_prim. Qed.

Lemma read4_shrinks : shrinks read4.
Proof. unfold shrinks, read4. shrink_prim. Qed.

Lemma readFloat_shrinks : shrinks readFloat.
Proof. unfold shrinks, readFloat. shrink_prim. Qed.

Lemma readNil_shrinks : shrinks readNil.
Proof. unfold shrinks, readNil. shrink_prim. Qed.

Lemma andThen_shrinks {A B : Type} (m : Reader -> Res A) (zero : B)
  (k : A -> Reader -> Res B) :
  shrinks m -> (forall a, shrinks (k a)) ->
  shrinks (fun r => andThen (m r) zero k).
Proof.
  intros Hm Hk r b e r'. unfold andThen.
  destruct (m r) as [a [e1|] r1| |] eqn:Hmr; try discriminate.
  - intros H. inversion H; subst. eapply Hm; eassumption.
  - intros H. apply Hk in H. apply Hm in Hmr. lia.
Qed.

Lemma readString_shrinks : shrinks readString.
Proof.
  unfold readString. apply andThen_shrinks; [apply read2_shrinks|].
  intros size. unfold shrinks. shrink_prim.
Qed.

Lemma readBin_shrinks : shrinks readBin.
Proof.
  unfold readBin. apply andThen_shrinks; [apply read4_shrinks|].
  intros size. unfold shrinks. shrink_prim.
Qed.

Lemma readBit_shrinks : shrinks readBit.
Proof.
  unfold readBit. apply andThen_shrinks; [apply read4_shrinks|].
  intros size. apply andThen_shrinks; [apply read1_shrinks|].
  intros bits. unfold shrinks. shrink_prim.
Qed.

Lemma asTerm_shrinks {A : Type} (inj : A -> Value) (rd : Reader -> Res A) :
  shrinks rd -> shrinks (fun r => asTerm inj (rd r)).
Proof.
  intros Hrd r v e r'. unfold asTerm.
  destruct (rd r) as [a e1 r1| |] eqn:Hr; try discriminate.
  intros H. inversion H; subst. eapply Hrd; eassumption.
Qed.

Lemma readComplex_shrinks (rd : Reader -> Res Value) :
  shrinks rd -> shrinks (readComplex rd).
Proof.
  intros Hrd r v e r'. unfold readComplex.
  destruct (rd r) as [term [e1|] r1| |] eqn:Hr; try discriminate.
  - intros H. inversion H; subst. eapply Hrd; eassumption.
  - apply Hrd in Hr.
    destruct (isAtom NilAtom term); [|destruct (isAtom TrueAtom term);
      [|destruct (isAtom FalseAtom term)]];
      intros H; inversion H; subst; assumption.
Qed.

Lemma tupleLoop_shrinks (rd : Reader -> Res Value) (n : nat) :
  shrinks rd -> forall tuple, shrinks (tupleLoop rd n tuple).
Proof.
  intros Hrd. induction n as [|n IH]; intros tuple r v e r'; cbn [tupleLoop].
  - intros H. inversion H; subst. lia.
  - destruct (rd r) as [term [e1|] r1| |] eqn:Hr; try discriminate.
    + intros H. inversion H; subst. eapply Hrd; eassumption.
    + apply Hrd in Hr. destruct (isAtom BertAtom term).
      * intros H. apply readComplex_shrinks in H; [lia|assumption].
      * intros H. apply IH in H. lia.
Qed.

Lemma listLoop_shrinks (rd : Reader -> Res Value) (n : nat) :
  shrinks rd -> forall elems, shrinks (listLoop rd n elems).
Proof.
  intros Hrd. induction n as [|n IH]; intros elems r v e r'; cbn [listLoop].
  - intros H. inversion H; subst. lia.
  - destruct (rd r) as [term [e1|] r1| |] eqn:Hr; try discriminate.
    + intros H. inversion H; subst. eapply Hrd; eassumption.
    + apply Hrd in Hr. intros H. apply IH in H. lia.
Qed.

Lemma readSmallTuple_shrinks (rd : Reader -> Res Value) :
  shrinks rd -> shrinks (readSmallTuple rd).
Proof.
  intros Hrd. unfold readSmallTuple.
  apply andThen_shrinks; [apply read1_shrinks|].
  intros size. apply tupleLoop_shrinks. assumption.
Qed.

Lemma readList_shrinks (rd : Reader -> Res Value) :
  shrinks rd -> shrinks (readList rd).
Proof.
  intros Hrd. unfold readList.
  apply andThen_shrinks; [apply read4_shrinks|].
  intros size r l e r'. destruct (size <? 0); [discriminate|].
  revert r l e r'.
  apply (andThen_shrinks (listLoop rd (Z.to_nat size) [])); [apply listLoop_shrinks; assumption|].
  intros elems r l e r'.
  destruct (read1 r) as [a e1 r1| |] eqn:Hr; try discriminate.
  intros H. inversion H; subst. eapply read1_shrinks; eassumption.
Qed.

Lemma dispatch_shrinks (rd : Reader -> Res Value) (tag : Z) :
  shrinks rd -> shrinks (dispatch rd tag).
Proof.
  intros Hrd. unfold dispatch.
  repeat match goal with
         | |- shrinks (fun r => if ?c then _ else _) => destruct c
         | |- shrinks (if ?c then _ else _) => destruct c
         end;
    try (intros r v e r' H; inversion H; subst; unfold remaining; lia).
  all: first
    [ apply (asTerm_shrinks VInt), read1_shrinks
    | apply (asTerm_shrinks VInt), read4_shrinks
    | apply (asTerm_shrinks VFloat), readFloat_shrinks
    | apply (asTerm_shrinks VAtom), readString_shrinks
    | apply (asTerm_shrinks VString), readString_shrinks
    | apply (asTerm_shrinks VBytes), readBin_shrinks
    | apply (asTerm_shrinks VSlice), readNil_shrinks
    | apply (asTerm_shrinks VSlice), readList_shrinks; assumption
    | apply readSmallTuple_shrinks; assumption
    | apply readBit_shrinks ].
Qed.

Lemma readTag_shrinks (fuel : nat) : shrinks (readTag fuel).
Proof.
  induction fuel as [|fuel IH].
  - intros r v e r' H. discriminate.
  - intros r v e r'. rewrite readTag_step.
    apply (andThen_shrinks read1 VNil (dispatch (readTag fuel)));
      [apply read1_shrinks|].
    intros tag. apply dispatch_shrinks. assumption.
Qed.

(** ** Fuel beyond the length of the stream changes nothing *)

Lemma readComplex_agree (k : nat) (rd1 rd2 : Reader -> Res Value) :
  agree k rd1 rd2 -> agree k (readComplex rd1) (readComplex rd2).
Proof. intros H r Hr. unfold readComplex. rewrite (H r Hr). reflexivity. Qed.

Lemma tupleLoop_agree (k : nat) (rd1 rd2 : Reader -> Res Value) (n : nat) :
  agree k rd1 rd2 -> shrinks rd1 ->
  forall tuple, agree k (tupleLoop rd1 n tuple) (tupleLoop rd2 n tuple).
Proof.
  intros Hag Hsh. induction n as [|n IH]; intros tuple r Hr; cbn [tupleLoop].
  - reflexivity.
  - rewrite <- (Hag r Hr).
    destruct (rd1 r) as [term [e1|] r1| |] eqn:Hrd; try reflexivity.
    apply Hsh in Hrd. destruct (isAtom BertAtom term).
    + apply (readComplex_agree k rd1 rd2 Hag). lia.
    + apply (IH (tuple ++ [term])). lia.
Qed.

Lemma listLoop_agree (k : nat) (rd1 rd2 : Reader -> Res Value) (n : nat) :
  agree k rd1 rd2 -> shrinks rd1 ->
  forall elems r, (remaining r < k)%nat ->
  listLoop rd1 n elems r = listLoop rd2 n elems r.
Proof.
  intros Hag Hsh. induction n as [|n IH]; intros elems r Hr; cbn [listLoop].
  - reflexivity.
  - rewrite <- (Hag r Hr).
    destruct (rd1 r) as [term [e1|] r1| |] eqn:Hrd; try reflexivity.
    apply Hsh in Hrd. apply IH. lia.
Qed.

Lemma dispatch_agree (k : nat) (rd1 rd2 : Reader -> Res Value) (tag : Z) :
  agree k rd1 rd2 -> shrinks rd1 -> agree k (dispatch rd1 tag) (dispatch rd2 tag).
Proof.
  intros Hag Hsh r Hr. unfold dispatch.
  repeat match goal with
         | |- (if ?c then _ else _) = _ => destruct c; try reflexivity
         end.
  - unfold readSmallTuple, andThen.
    destruct (read1 r) as [size [e1|] r1| |] eqn:H1; try reflexivity.
    apply read1_shrinks in H1.
    apply (tupleLoop_agree k rd1 rd2 _ Hag Hsh). lia.
  - f_equal. unfold readList, andThen.
    destruct (read4 r) as [size [e1|] r1| |] eqn:H4; try reflexivity.
    apply read4_shrinks in H4. destruct (size <? 0); [reflexivity|].
    rewrite (listLoop_agree k rd1 rd2) by (assumption || lia). reflexivity.
Qed.

Lemma readTag_fuel_step (fuel : nat) :
  agree fuel (readTag fuel) (readTag (S fuel)).
Proof.
  induction fuel as [|fuel IH]; intros r Hr; [lia|].
  rewrite (readTag_step (S fuel)), (readTag_step fuel). unfold andThen.
  destruct (read1 r) as [tag [e1|] r1| |] eqn:H1; try reflexivity.
  apply read1_consumes in H1.
  apply (dispatch_agree fuel _ _ tag IH (readTag_shrinks fuel)). lia.
Qed.

Lemma readTag_enough (fuel : nat) (r : Reader) :
  (remaining r < fuel)%nat -> readTag fuel r = readTerm r.
Proof.
  unfold readTerm. fold (remaining r). intros Hr.
  replace fuel with ((fuel - S (remaining r)) + S (remaining r))%nat by lia.
  induction (fuel - S (remaining r))%nat as [|d IH]; [reflexivity|].
  cbn [Nat.add]. rewrite <- readTag_fuel_step by lia. exact IH.
Qed.

(** ** The decoder always has fuel enough *)

Lemma readComplex_fed (k : nat) (rd : Reader -> Res Value) :
  fed k rd -> fed k (readComplex rd).
Proof.
  intros H r Hr. unfold readComplex. specialize (H r Hr).
  destruct (rd r) as [term [e1|] r1| |]; try congruence.
  destruct (isAtom NilAtom term); [|destruct (isAtom TrueAtom term);
    [|destruct (isAtom FalseAtom term)]]; discriminate.
Qed.

Lemma tupleLoop_fed (k : nat) (rd : Reader -> Res Value) (n : nat) :
  fed k rd -> shrinks rd -> forall tuple, fed k (tupleLoop rd n tuple).
Proof.
  intros Hfed Hsh. induction n as [|n IH]; intros tuple r Hr; cbn [tupleLoop].
  - discriminate.
  - pose proof (Hfed r Hr) as Hne.
    destruct (rd r) as [term [e1|] r1| |] eqn:Hrd; try congruence.
    apply Hsh in Hrd. destruct (isAtom BertAtom term).
    + apply (readComplex_fed k rd Hfed). lia.
    + apply (IH (tuple ++ [term])). lia.
Qed.

Lemma listLoop_fed (k : nat) (rd : Reader -> Res Value) (n : nat) :
  fed k rd -> shrinks rd -> forall elems, fed k (listLoop rd n elems).
Proof.
  intros Hfed Hsh. induction n as [|n IH]; intros elems r Hr; cbn [listLoop].
  - discriminate.
  - pose proof (Hfed r Hr) as Hne.
    destruct (rd r) as [term [e1|] r1| |] eqn:Hrd; try congruence.
    apply Hsh in Hrd. apply (IH (elems ++ [term])). lia.
Qed.

Ltac fed_prim :=
  repeat match goal with
         | |- context [ReadAll ?x] => destruct (ReadAll x) as [? [?|]]
         | |- context [match ?l with [] => _ | _ :: _ => _ end] => destruct l
         | |- context [match parseFloat ?l with _ => _ end] => destruct (parseFloat l)
         end;
  discriminate.

Lemma read1_fed (r : Reader) : read1 r <> OutOfFuel.
Proof. unfold read1. fed_prim. Qed.

Lemma read2_fed (r : Reader) : read2 r <> OutOfFuel.
Proof. unfold read2. fed_prim. Qed.

Lemma read4_fed (r : Reader) : read4 r <> OutOfFuel.
Proof. unfold read4. fed_prim. Qed.

Lemma asTerm_fed {A : Type} (inj : A -> Value) (m : Res A) :
  m <> OutOfFuel -> asTerm inj m <> OutOfFuel.
Proof. destruct m; simpl; congruence. Qed.

Lemma readString_fed (r : Reader) : readString r <> OutOfFuel.
Proof.
  unfold readString, andThen. pose proof (read2_fed r).
  destruct (read2 r) as [size [e1|] r1| |]; try congruence. fed_prim.
Qed.

Lemma readBin_fed (r : Reader) : readBin r <> OutOfFuel.
Proof.
  unfold readBin, andThen. pose proof (read4_fed r).
  destruct (read4 r) as [size [e1|] r1| |]; try congruence. fed_prim.
Qed.

Lemma readBit_fed (r : Reader) : readBit r <> OutOfFuel.
Proof.
  unfold readBit, andThen. pose proof (read4_fed r).
  destruct (read4 r) as [size [e1|] r1| |]; try congruence.
  pose proof (read1_fed r1).
  destruct (read1 r1) as [bits [e1|] r2| |]; try congruence. fed_prim.
Qed.

Lemma dispatch_fed (k : nat) (rd : Reader -> Res Value) (tag : Z) :
  fed k rd -> shrinks rd -> fed k (dispatch rd tag).
Proof.
  intros Hfed Hsh r Hr. unfold dispatch.
  repeat match goal with
         | |- (if ?c then _ else _) <> _ => destruct c
         end; try discriminate.
  - apply asTerm_fed, read1_fed.
  - apply asTerm_fed, read4_fed.
  - apply asTerm_fed. unfold readFloat. fed_prim.
  - apply asTerm_fed, readString_fed.
  - unfold readSmallTuple, andThen. pose proof (read1_fed r).
    destruct (read1 r) as [size [e1|] r1| |] eqn:H1; try congruence.
    apply read1_shrinks in H1.
    apply (tupleLoop_fed k rd _ Hfed Hsh). lia.
  - apply asTerm_fed. unfold readNil. fed_prim.
  - apply asTerm_fed, readString_fed.
  - apply asTerm_fed. unfold readList, andThen. pose proof (read4_fed r).
    destruct (read4 r) as [size [e1|] r1| |] eqn:H4; try congruence.
    apply read4_shrinks in H4. destruct (size <? 0); [discriminate|].
    pose proof (listLoop_fed k rd (Z.to_nat size) Hfed Hsh [] r1) as Hl.
    destruct (listLoop rd (Z.to_nat size) [] r1) as [elems [e2|] r2| |];
      try discriminate; [|apply Hl; lia].
    pose proof (read1_fed r2).
    destruct (read1 r2); congruence.
  - apply asTerm_fed, readBin_fed.
  - apply readBit_fed.
Qed.

Lemma readTag_fed (fuel : nat) : fed fuel (readTag fuel).
Proof.
  induction fuel as [|fuel IH]; intros r Hr; [lia|].
  rewrite readTag_step. unfold andThen. pose proof (read1_fed r).
  destruct (read1 r) as [tag [e1|] r1| |] eqn:H1; try congruence.
  apply read1_consumes in H1.
  apply (dispatch_fed fuel _ tag IH (readTag_shrinks fuel)). lia.
Qed.

Theorem readTerm_total (r : Reader) : readTerm r <> OutOfFuel.
Proof. apply readTag_fed. unfold remaining. lia. Qed.

Theorem DecodeFrom_total (r : Reader) : DecodeFrom r <> OutOfFuel.
Proof.
  unfold DecodeFrom, andThen. pose proof (read1_fed r).
  destruct (read1 r) as [version [e1|] r1| |]; try congruence.
  destruct (negb (version =? VersionTag)); [discriminate|].
  apply readTerm_total.
Qed.

(** ** The three integer encodings *)

Ltac decide_tests :=
  rewrite ?Z.geb_leb;
  repeat match goal with
         | |- context [?a <=? ?b] => destruct (Z.leb_spec a b)
         | |- context [?a <? ?b] => destruct (Z.ltb_spec a b)
         end;
  cbn [andb]; try reflexivity; try lia.

Lemma writeNumber_small (n : Z) :
  0 <= n <= 255 -> writeNumber n = writeSmallInt (uint8 n).
Proof. intros Hn. unfold writeNumber, IsInt64. cbv zeta. decide_tests. Qed.

Lemma writeNumber_int (n : Z) :
  -2147483648 <= n <= 2147483647 -> ~ (0 <= n <= 255) ->
  writeNumber n = writeInt (uint32 n).
Proof. intros Hn Hs. unfold writeNumber, IsInt64. cbv zeta. decide_tests. Qed.

Lemma writeNumber_big (n : Z) :
  ~ (-2147483648 <= n <= 2147483647) -> writeNumber n = writeBignum n.
Proof. intros Hn. unfold writeNumber, IsInt64. cbv zeta. decide_tests. Qed.

(** ** The magnitude bytes of a big number *)

Lemma le_value_app (l : list byte) (b : byte) :
  le_value (l ++ [b]) = le_value l + 256 ^ len l * byte.unsigned b.
Proof.
  induction l as [|a l IH]; cbn [app le_value].
  - change (len (@nil byte)) with 0. rewrite Z.pow_0_r. lia.
  - rewrite IH. unfold len. cbn [length]. rewrite Nat2Z.inj_succ, Z.pow_succ_r by lia.
    lia.
Qed.

Lemma be_digits_value (fuel : nat) :
  forall (m : Z) (acc : list byte),
    0 <= m < 256 ^ Z.of_nat fuel ->
    le_value (rev (be_digits fuel m acc)) = le_value (rev acc) + 256 ^ len acc * m.
Proof.
  induction fuel as [|fuel IH]; intros m acc Hm.
  - simpl in Hm. assert (m = 0) by lia. subst. cbn [be_digits]. lia.
  - cbn [be_digits]. destruct (Z.eqb_spec m 0) as [-> | Hne]; [lia|].
    rewrite Nat2Z.inj_succ, Z.pow_succ_r in Hm by lia.
    rewrite IH.
    + cbn [rev]. rewrite le_value_app. unfold len. rewrite length_rev.
      cbn [length]. rewrite Nat2Z.inj_succ, Z.pow_succ_r by lia.
      rewrite unsigned_of_Z_mod, Z.shiftr_div_pow2 by lia.
      change (2 ^ 8) with 256. fold (len acc).
      pose proof (Z.div_mod m 256). lia.
    + rewrite Z.shiftr_div_pow2 by lia. change (2 ^ 8) with 256.
      split; [apply Z.div_pos; lia|]. apply Z.div_lt_upper_bound; lia.
Qed.

Lemma be_digits_length (fuel : nat) :
  forall (k : nat) (m : Z) (acc : list byte),
    0 <= m < 256 ^ Z.of_nat k ->
    (length (be_digits fuel m acc) <= length acc + k)%nat.
Proof.
  induction fuel as [|fuel IH]; intros k m acc Hm; cbn [be_digits]; [lia|].
  destruct (Z.eqb_spec m 0) as [-> | Hne]; [lia|].
  destruct k as [|k]; [simpl in Hm; lia|].
  rewrite Nat2Z.inj_succ, Z.pow_succ_r in Hm by lia.
  specialize (IH k (Z.shiftr m 8) (byte.of_Z m :: acc)).
  cbn [length] in IH. rewrite <- Nat.add_succ_comm. apply IH.
  rewrite Z.shiftr_div_pow2 by lia. change (2 ^ 8) with 256.
  split; [apply Z.div_pos; lia|]. apply Z.div_lt_upper_bound; lia.
Qed.

Lemma magnitude_fuel (m : Z) :
  0 <= m -> m < 256 ^ Z.of_nat (S (Z.to_nat (Z.log2 m))).
Proof.
  intros Hm. destruct (Z.eq_dec m 0) as [-> | Hne]; [reflexivity|].
  pose proof (Z.log2_nonneg m) as Hl.
  rewrite Nat2Z.inj_succ, Z2Nat.id by assumption.
  apply Z.lt_le_trans with (2 ^ Z.succ (Z.log2 m)).
  - apply Z.log2_spec. lia.
  - change 256 with (2 ^ 8). rewrite <- Z.pow_mul_r by lia.
    apply Z.pow_le_mono_r; lia.
Qed.

Lemma Bytes_value (n : Z) : le_value (rev (Bytes n)) = Z.abs n.
Proof.
  unfold Bytes. rewrite be_digits_value.
  - change (len (@nil byte)) with 0. change (le_value (rev [])) with 0.
    rewrite Z.pow_0_r. lia.
  - split; [lia|]. apply magnitude_fuel. lia.
Qed.

Lemma Bytes_length (n : Z) (k : nat) :
  Z.abs n < 256 ^ Z.of_nat k -> (length (Bytes n) <= k)%nat.
Proof.
  intros Hn. unfold Bytes.
  pose proof (be_digits_length (S (Z.to_nat (Z.log2 (Z.abs n)))) k (Z.abs n) []) as H.
  cbn [length] in H. apply H. lia.
Qed.

(** C4. A signed integer is encoded by magnitude: [0..255] with the
    small-integer tag 97 and one byte; the rest of the 32-bit two's
    complement range with the integer tag 98 and four big-endian bytes;
    everything else with the big-number tag 110. *)
Theorem C4_integer_tag_by_magnitude (n : Z) :
  - 2 ^ 63 <= n < 2 ^ 63 ->
  (0 <= n <= 255 ->
     writeTag (VInt n)
     = (write1 (uint8 SmallIntTag) ++ write1 (uint8 n), Done)) /\
  (-2147483648 <= n <= 2147483647 -> ~ (0 <= n <= 255) ->
     writeTag (VInt n)
     = (write1 (uint8 IntTag) ++ write4 (uint32 n), Done)) /\
  (~ (-2147483648 <= n <= 2147483647) ->
     exists payload,
       writeTag (VInt n) = (write1 (uint8 SmallBignumTag) ++ payload, Done)).
Proof.
  intros _. cbn [writeTag]. repeat split.
  - intros H. rewrite writeNumber_small by assumption. reflexivity.
  - intros H1 H2. rewrite writeNumber_int by assumption. reflexivity.
  - intros H. rewrite writeNumber_big by assumption. unfold writeBignum.
    eexists. reflexivity.
Qed.

(** C5 (amended). An integer outside the 32-bit range is written as the
    tag 110, one byte holding the number of magnitude bytes modulo 256
    (the exact number whenever the magnitude is below [2 ^ 2040]), one sign
    byte (0 for non-negative, 1 for negative) and the magnitude in
    little-endian order, the reverse of its big-endian bytes. *)
Theorem C5_bignum_layout (n : Z) :
  ~ (-2147483648 <= n <= 2147483647) ->
  let magnitude := rev (Bytes n) in
  writeNumber n
  = write1 (uint8 SmallBignumTag) ++ write1 (uint8 (len magnitude)) ++
    write1 (uint8 (if 0 <=? n then 0 else 1)) ++ magnitude /\
  le_value magnitude = Z.abs n /\
  byte.unsigned (uint8 (len magnitude)) = len magnitude mod 256 /\
  (Z.abs n < 2 ^ 2040 -> byte.unsigned (uint8 (len magnitude)) = len magnitude).
Proof.
  intros Hn magnitude. split; [|split; [|split]].
  - rewrite writeNumber_big by assumption. unfold writeBignum.
    fold magnitude. do 2 f_equal. unfold Sign.
    destruct (Z.leb_spec 0 n) as [H | H].
    + replace (Z.sgn n >? -1) with true; [reflexivity|].
      symmetry. apply Z.gtb_lt. lia.
    + replace (Z.sgn n >? -1) with false; [reflexivity|].
      symmetry. rewrite Z.gtb_ltb. apply Z.ltb_ge. lia.
  - apply Bytes_value.
  - apply unsigned_of_Z_mod.
  - intros Hsmall. unfold uint8. apply unsigned_of_Z_small.
    pose proof (Bytes_length n 255) as Hl.
    unfold magnitude, len. rewrite length_rev. split; [lia|].
    change (256 ^ Z.of_nat 255) with (2 ^ 2040) in Hl. specialize (Hl Hsmall). lia.
Qed.

(** C6 (amended). An unsigned input is widened to an unbounded integer and
    encoded as that integer is: by magnitude, with the small-integer tag
    up to 255, the integer tag up to 2147483647 and the big-number tag only
    above. *)
Theorem C6_unsigned_by_magnitude (n : Z) :
  0 <= n < 2 ^ 64 ->
  writeTag (VUint n) = writeTag (VBigInt n) /\
  (n <= 255 -> writeTag (VUint n) = (writeSmallInt (uint8 n), Done)) /\
  (255 < n <= 2147483647 -> writeTag (VUint n) = (writeInt n, Done)) /\
  (2147483647 < n ->
     exists payload,
       writeTag (VUint n) = (write1 (uint8 SmallBignumTag) ++ payload, Done)).
Proof.
  intros Hn. cbn [writeTag]. repeat split.
  - intros H. rewrite writeNumber_small by lia. reflexivity.
  - intros H. rewrite writeNumber_int by lia.
    unfold uint32. rewrite Z.mod_small by (simpl; lia). reflexivity.
  - intros H. rewrite writeNumber_big by lia. unfold writeBignum.
    eexists. reflexivity.
Qed.



Lemma Encode_emitted (x : Value) :
  emitted (Encode x) = write1 (uint8 VersionTag) ++ emitted (writeTag x).
Proof. unfold Encode, EncodeTo. destruct (writeTag x). reflexivity. Qed.

Lemma read1_write1 (b : byte) (rest : list byte) (e : option Error) :
  read1 (mkReader (write1 b ++ rest) e)
  = Ret (byte.unsigned b) None (mkReader rest e).
Proof. apply read1_cons. Qed.

Lemma Decode_versioned (body : list byte) :
  Decode (write1 (uint8 VersionTag) ++ body) = readTerm (NewBuffer body).
Proof.
  unfold Decode, DecodeFrom, NewBuffer.
  change (write1 (uint8 VersionTag) ++ body) with (uint8 VersionTag :: body).
  rewrite read1_cons. unfold andThen, uint8.
  rewrite unsigned_of_Z_small by (unfold VersionTag; lia). reflexivity.
Qed.



(** C8. A small tuple whose first element is the atom [bert] is a
    complex-term wrapper: the decoder reads the term that follows, and the
    atoms [nil], [true] and [false] there make the whole tuple native nil,
    true and false; any other term is returned as it is. *)
Theorem C8_bert_tuple_is_complex_term (size : Z) (rest : list byte)
  (e : option Error) :
  1 <= size <= 255 ->
  let second := mkReader rest e in
  let tuple :=
    mkReader (write1 (uint8 SmallTupleTag) ++ write1 (uint8 size) ++
              writeAtom BertAtom ++ rest) e in
  readTerm tuple = readComplex readTerm second /\
  (forall r, readTerm second = Ret (VAtom NilAtom) None r ->
             readTerm tuple = Ret VNil None r) /\
  (forall r, readTerm second = Ret (VAtom TrueAtom) None r ->
             readTerm tuple = Ret (VBool true) None r) /\
  (forall r, readTerm second = Ret (VAtom FalseAtom) None r ->
             readTerm tuple = Ret (VBool false) None r) /\
  (forall term r, readTerm second = Ret term None r ->
                  isAtom NilAtom term = false ->
                  isAtom TrueAtom term = false ->
                  isAtom FalseAtom term = false ->
                  readTerm tuple = Ret term None r).
Proof.
  intros Hsize second tuple.
  assert (Hwrap : readTerm tuple = readComplex readTerm second).
  { unfold readTerm at 1. unfold tuple. cbn [pending].
    rewrite readTag_tagged by (unfold SmallTupleTag; lia). cbv zeta.
    change (SmallTupleTag =? SmallIntTag) with false.
    change (SmallTupleTag =? IntTag) with false.
    change (SmallTupleTag =? SmallBignumTag) with false.
    change (SmallTupleTag =? LargeBignumTag) with false.
    change (SmallTupleTag =? FloatTag) with false.
    change (SmallTupleTag =? AtomTag) with false.
    change (SmallTupleTag =? SmallTupleTag) with true. cbv iota.
    unfold readSmallTuple. rewrite read1_write1. unfold andThen, uint8 at 1.
    rewrite unsigned_of_Z_small by lia.
    destruct (Z.to_nat size) as [|k] eqn:Hk; [lia|].
    cbn [tupleLoop].
    assert (Hbert : reads_back (VAtom BertAtom)).
    { apply representable_reads_back. cbn [representable]. reflexivity. }
    destruct Hbert as [_ Hbert]. cbn [writeTag emitted fst normalise] in Hbert.
    rewrite Hbert.
    2:{ rewrite !length_app. cbn [length write1]. lia. }
    change (isAtom BertAtom (VAtom BertAtom)) with true. cbv iota.
    unfold readComplex. rewrite readTag_enough; [reflexivity|].
    unfold remaining, second. cbn [pending].
    rewrite !length_app. cbn [length write1]. lia. }
  split; [exact Hwrap|]. rewrite Hwrap. unfold readComplex.
  repeat split.
  - intros r H. rewrite H. reflexivity.
  - intros r H. rewrite H. reflexivity.
  - intros r H. rewrite H. reflexivity.
  - intros term r H H1 H2 H3. rewrite H, H1, H2, H3. reflexivity.
Qed.



(** ** Truncated input and dropped errors *)

Lemma NewBuffer_reads_without_error (data : list byte) (n : Z) :
  snd (ReadAll (LimitReader (NewBuffer data) n)) = None.
Proof.
  unfold ReadAll, LimitReader, NewBuffer. cbn [pending].
  destruct (n <=? len data); reflexivity.
Qed.

(** ** End of file is never reported *)

Lemma ReadAll_at_eof (r : Reader) (n : Z) :
  ending r = None ->
  snd (ReadAll (LimitReader r n)) = None /\ ending (advance r n) = None.
Proof.
  intros Hr. unfold ReadAll, LimitReader, advance. cbn [ending snd].
  destruct (n <=? len (pending r)); auto.
Qed.

Ltac quiet_prim n :=
  intros r Hr;
  destruct (ReadAll_at_eof r n Hr) as [Herr Hend];
  destruct (ReadAll (LimitReader r n)) as [got_bytes err];
  cbn [snd] in Herr; subst err;
  repeat match goal with
         | |- context [match ?l with [] => _ | _ :: _ => _ end] => destruct l
         | |- context [match parseFloat ?l with _ => _ end] => destruct (parseFloat l)
         end;
  cbn [own_error]; auto.

Lemma read1_quiet : quiet read1.
Proof. unfold quiet, read1. quiet_prim 1. Qed.

Lemma read2_quiet : quiet read2.
Proof. unfold quiet, read2. quiet_prim 2. Qed.

Lemma read4_quiet : quiet read4.
Proof. unfold quiet, read4. quiet_prim 4. Qed.

Lemma readFloat_quiet : quiet readFloat.
Proof. unfold quiet, readFloat. quiet_prim 31. Qed.

Lemma readNil_quiet : quiet readNil.
Proof. unfold quiet, readNil. quiet_prim 1. Qed.

Lemma andThen_quiet {A B : Type} (m : Reader -> Res A) (zero : B)
  (k : A -> Reader -> Res B) :
  quiet m -> (forall a, quiet (k a)) -> quiet (fun r => andThen (m r) zero k).
Proof.
  intros Hm Hk r Hr. specialize (Hm r Hr). unfold andThen.
  destruct (m r) as [a [e|] r1| |]; try exact I.
  - exact Hm.
  - apply Hk. apply Hm.
Qed.

Lemma payload_quiet (size : Z) :
  quiet (fun r1 =>
           let (str, err) := ReadAll (LimitReader r1 size) in
           let r2 := advance r1 size in
           match err with
           | Some e => Ret [] (Some e) r2
           | None => Ret str None r2
           end).
Proof. unfold quiet. quiet_prim size. Qed.

Lemma readString_quiet : quiet readString.
Proof.
  unfold readString. apply andThen_quiet; [apply read2_quiet|].
  apply payload_quiet.
Qed.

Lemma readBin_quiet : quiet readBin.
Proof.
  unfold readBin. apply andThen_quiet; [apply read4_quiet|].
  apply payload_quiet.
Qed.

Lemma readBit_quiet : quiet readBit.
Proof.
  unfold readBit. apply andThen_quiet; [apply read4_quiet|].
  intros size. apply andThen_quiet; [apply read1_quiet|].
  intros bits. unfold quiet. quiet_prim size.
Qed.

Lemma asTerm_quiet {A : Type} (inj : A -> Value) (rd : Reader -> Res A) :
  quiet rd -> quiet (fun r => asTerm inj (rd r)).
Proof.
  intros Hrd r Hr. specialize (Hrd r Hr). unfold asTerm.
  destruct (rd r); auto.
Qed.

Lemma readComplex_quiet (rd : Reader -> Res Value) :
  quiet rd -> quiet (readComplex rd).
Proof.
  intros Hrd r Hr. specialize (Hrd r Hr). unfold readComplex.
  destruct (rd r) as [term [e|] r1| |]; auto.
  destruct (isAtom NilAtom term); [|destruct (isAtom TrueAtom term);
    [|destruct (isAtom FalseAtom term)]]; exact Hrd.
Qed.

Lemma tupleLoop_quiet (rd : Reader -> Res Value) (n : nat) :
  quiet rd -> forall tuple, quiet (tupleLoop rd n tuple).
Proof.
  intros Hrd. induction n as [|n IH]; intros tuple r Hr; cbn [tupleLoop].
  - cbn [own_error]. auto.
  - pose proof (Hrd r Hr) as H.
    destruct (rd r) as [term [e|] r1| |]; auto.
    destruct H as [_ H1]. destruct (isAtom BertAtom term).
    + apply readComplex_quiet; assumption.
    + apply IH. assumption.
Qed.

Lemma listLoop_quiet (rd : Reader -> Res Value) (n : nat) :
  quiet rd -> forall elems, quiet (listLoop rd n elems).
Proof.
  intros Hrd. induction n as [|n IH]; intros elems r Hr; cbn [listLoop].
  - cbn [own_error]. auto.
  - pose proof (Hrd r Hr) as H.
    destruct (rd r) as [term [e|] r1| |]; auto.
    destruct H as [_ H1]. apply IH. assumption.
Qed.

Lemma readSmallTuple_quiet (rd : Reader -> Res Value) :
  quiet rd -> quiet (readSmallTuple rd).
Proof.
  intros Hrd. unfold readSmallTuple.
  apply andThen_quiet; [apply read1_quiet|].
  intros size. apply tupleLoop_quiet. assumption.
Qed.

Lemma readList_quiet (rd : Reader -> Res Value) :
  quiet rd -> quiet (readList rd).
Proof.
  intros Hrd. unfold readList.
  apply andThen_quiet; [apply read4_quiet|].
  intros size r Hr. destruct (size <? 0); [exact I|].
  revert r Hr.
  apply (andThen_quiet (listLoop rd (Z.to_nat size) []));
    [apply listLoop_quiet; assumption|].
  intros elems r Hr. pose proof (read1_quiet r Hr) as H.
  destruct (read1 r) as [a e r1| |]; auto.
  cbn [own_error]. split; [exact I|apply H].
Qed.

Lemma dispatch_quiet (rd : Reader -> Res Value) (tag : Z) :
  quiet rd -> quiet (dispatch rd tag).
Proof.
  intros Hrd. unfold dispatch.
  repeat match goal with
         | |- quiet (fun r => if ?c then _ else _) => destruct c
         | |- quiet (if ?c then _ else _) => destruct c
         end;
    try solve [intros r Hr; cbn [own_error]; auto].
  all: first
    [ apply (asTerm_quiet VInt), read1_quiet
    | apply (asTerm_quiet VInt), read4_quiet
    | apply (asTerm_quiet VFloat), readFloat_quiet
    | apply (asTerm_quiet VAtom), readString_quiet
    | apply (asTerm_quiet VString), readString_quiet
    | apply (asTerm_quiet VBytes), readBin_quiet
    | apply (asTerm_quiet VSlice), readNil_quiet
    | apply (asTerm_quiet VSlice), readList_quiet; assumption
    | apply readSmallTuple_quiet; assumption
    | apply readBit_quiet ].
Qed.

Lemma readTag_quiet (fuel : nat) : quiet (readTag fuel).
Proof.
  induction fuel as [|fuel IH].
  - intros r Hr. exact I.
  - intros r. rewrite readTag_step. revert r.
    apply (andThen_quiet read1 VNil (dispatch (readTag fuel)));
      [apply read1_quiet|].
    intros tag. apply dispatch_quiet. assumption.
Qed.

Lemma DecodeFrom_quiet : quiet DecodeFrom.
Proof.
  unfold DecodeFrom. apply andThen_quiet; [apply read1_quiet|].
  intros version r Hr.
  destruct (negb (version =? VersionTag)); [cbn [own_error]; auto|].
  apply readTag_quiet. assumption.
Qed.

(** C2. What the decoder does on truncated input read from memory: a
    fixed-width read that finds fewer bytes than its width panics, a
    length-prefixed payload that stops early is returned, short, as a
    success, and no input at all makes [Decode] return an error other than
    [ErrBadMagic], [ErrUnknownType] and the float syntax error. *)
Theorem C2_truncated_input_panics_or_succeeds (data payload : list byte)
  (size : Z) :
  (length data < 4)%nat ->
  len payload < size < 65536 ->
  read4 (NewBuffer data) = Panic /\
  ((length data < 2)%nat -> read2 (NewBuffer data) = Panic) /\
  ((length data < 1)%nat -> read1 (NewBuffer data) = Panic) /\
  readString (NewBuffer (write2 size ++ payload))
  = Ret payload None (NewBuffer []) /\
  Decode (write1 (uint8 VersionTag) ++ write1 (uint8 StringTag) ++
          write2 size ++ payload)
  = Ret (VString payload) None (NewBuffer []) /\
  (forall input : list byte,
     match Decode input with
     | Ret _ e _ => own_error e
     | _ => True
     end).
Proof.
  intros Hdata Hsize. pose proof (len_nonneg payload) as Hpos.
  assert (Hstr : forall e, readString (mkReader (write2 size ++ payload) e)
                 = match e with
                   | None => Ret payload None (mkReader [] e)
                   | Some err => Ret [] (Some err) (mkReader [] e)
                   end).
  { intros e. unfold readString. rewrite read2_write2 by lia. unfold andThen.
    unfold ReadAll, LimitReader, advance. cbn [pending ending].
    replace (size <=? len payload) with false by (symmetry; apply Z.leb_gt; lia).
    cbn [pending ending]. rewrite skipn_all2 by (unfold len in *; lia).
    destruct e; reflexivity. }
  split; [|split; [|split; [|split; [|split]]]].
  - unfold read4, ReadAll, LimitReader, NewBuffer. cbn [pending].
    replace (4 <=? len data) with false
      by (symmetry; apply Z.leb_gt; unfold len; lia).
    cbn [pending ending].
    destruct data as [|? [|? [|? [|? ?]]]]; try reflexivity.
    simpl in Hdata. lia.
  - intros H2. unfold read2, ReadAll, LimitReader, NewBuffer. cbn [pending].
    replace (2 <=? len data) with false
      by (symmetry; apply Z.leb_gt; unfold len; lia).
    cbn [pending ending].
    destruct data as [|? [|? ?]]; try reflexivity. simpl in H2. lia.
  - intros H1. destruct data; [reflexivity|]. simpl in H1. lia.
  - apply (Hstr None).
  - rewrite Decode_versioned. unfold readTerm, NewBuffer. cbn [pending].
    rewrite readTag_tagged by (unfold StringTag; lia). cbv zeta.
    change (StringTag =? SmallIntTag) with false.
    change (StringTag =? IntTag) with false.
    change (StringTag =? SmallBignumTag) with false.
    change (StringTag =? LargeBignumTag) with false.
    change (StringTag =? FloatTag) with false.
    change (StringTag =? AtomTag) with false.
    change (StringTag =? SmallTupleTag) with false.
    change (StringTag =? LargeTupleTag) with false.
    change (StringTag =? NilTag) with false.
    change (StringTag =? StringTag) with true. cbv iota.
    rewrite (Hstr None). reflexivity.
  - intros input. pose proof (DecodeFrom_quiet (NewBuffer input) eq_refl) as H.
    unfold Decode. destruct (DecodeFrom (NewBuffer input)); [apply H|exact I..].
Qed.

(** C3. [UnmarshalFrom] never returns an error, whatever the decoder
    reported, and so neither does [UnmarshalRequest] on a frame read from
    memory: a failed decode ends in a panic or in a nil error.  Into a
    target that is not a struct, every failure of the decoder becomes a
    nil error with the target untouched. *)
Theorem C3_unmarshal_never_reports_failure :
  (forall (S : Type) (HS : Settable S) (r : Reader) (val : S),
     reports_no_error (UnmarshalFrom r val)) /\
  (forall data : list byte,
     reports_no_error (UnmarshalRequest (NewBuffer data))) /\
  (forall (data : list byte) (x : Z),
     Decode (uint8 0 :: data) = Ret VNil (Some ErrBadMagic) (NewBuffer data) /\
     Unmarshal (uint8 0 :: data) x = Ret x None (NewBuffer data)) /\
  (forall (data : list byte) (x : Z) (v : Value) (e : Error) (r : Reader),
     Decode data = Ret v (Some e) r -> Unmarshal data x = Ret x None r).
Proof.
  assert (Hfrom : forall (S : Type) (HS : Settable S) (r : Reader) (val : S),
            reports_no_error (UnmarshalFrom r val)).
  { intros S HS r val. unfold UnmarshalFrom.
    destruct (DecodeFrom r) as [result err r'| |]; try exact I.
    destruct isStruct; [|exact I].
    destruct (reflectLen result) as [n|]; [|exact I].
    destruct (bindLoop result 0 n val); exact I. }
  split; [exact Hfrom|split; [|split]].
  - intros data. unfold UnmarshalRequest, andThen.
    destruct (read4 (NewBuffer data)) as [size [e|] r1| |] eqn:H4; try exact I.
    + exfalso. unfold read4 in H4.
      pose proof (NewBuffer_reads_without_error data 4) as Hn.
      destruct (ReadAll (LimitReader (NewBuffer data) 4)) as [bits err].
      cbn [snd] in Hn. subst err.
      destruct bits as [|? [|? [|? [|? ?]]]]; discriminate.
    + specialize (Hfrom Request _ (LimitReader r1 size) zeroRequest).
      destruct (UnmarshalFrom (LimitReader r1 size) zeroRequest) as [? [?|] ?| |];
        try exact I. contradiction.
  - intros data x.
    assert (Hd : Decode (uint8 0 :: data)
                 = Ret VNil (Some ErrBadMagic) (NewBuffer data)).
    { unfold Decode, DecodeFrom, NewBuffer. rewrite read1_cons. reflexivity. }
    split; [exact Hd|].
    unfold Unmarshal, UnmarshalFrom.
    change (DecodeFrom (NewBuffer (uint8 0 :: data))) with (Decode (uint8 0 :: data)).
    rewrite Hd. reflexivity.
  - intros data x v e r Hd. unfold Unmarshal, UnmarshalFrom.
    change (DecodeFrom (NewBuffer data)) with (Decode data).
    rewrite Hd. reflexivity.
Qed.

(** * Further properties *)

(** ** Further properties of the decoder *)

Lemma readTerm_tagged (tag : Z) (rest : list byte) (e : option Error) :
  0 <= tag < 256 ->
  readTerm (mkReader (write1 (uint8 tag) ++ rest) e)
  = dispatch readTerm tag (mkReader rest e).
Proof.
  intros Ht. unfold readTerm at 1. rewrite readTag_step.
  rewrite read1_write1. unfold andThen, uint8.
  rewrite unsigned_of_Z_small by assumption.
  apply (dispatch_agree (length (pending (mkReader (write1 (byte.of_Z tag) ++ rest) e)))).
  - intros r Hr. apply readTag_enough. exact Hr.
  - apply readTag_shrinks.
  - unfold remaining. cbn [pending]. rewrite length_app. cbn [length write1]. lia.
Qed.

(** X1. A stream whose first byte is not the version byte 131 is refused
    with [ErrBadMagic]: no term is returned and nothing after that byte is
    read. *)
Theorem DecodeFrom_bad_magic (b : byte) (rest : list byte) (e : option Error) :
  byte.unsigned b <> VersionTag ->
  DecodeFrom (mkReader (b :: rest) e)
  = Ret VNil (Some ErrBadMagic) (mkReader rest e).
Proof.
  intros Hb. unfold DecodeFrom. rewrite read1_cons. unfold andThen.
  replace (byte.unsigned b =? VersionTag) with false
    by (symmetry; apply Z.eqb_neq; assumption).
  reflexivity.
Qed.

Lemma unsupported_tag_refused (b : byte) (rest : list byte)
  (e : option Error) :
  supportedTag (byte.unsigned b) = false ->
  readTerm (mkReader (b :: rest) e)
  = Ret VNil (Some ErrUnknownType) (mkReader rest e).
Proof.
  intros Hs. rewrite <- (byte.of_Z_unsigned b) at 1.
  change (byte.of_Z (byte.unsigned b) :: rest)
    with (write1 (uint8 (byte.unsigned b)) ++ rest).
  rewrite readTerm_tagged by apply byte_range.
  unfold supportedTag in Hs. unfold dispatch.
  repeat match type of Hs with
         | _ || _ = false => apply orb_false_iff in Hs; destruct Hs as [Hs ?]
         end.
  repeat match goal with
         | H : (?a =? ?b) = false |- _ => rewrite H; clear H
         end.
  repeat match goal with
         | |- (if ?c then _ else _) = _ => destruct c; try reflexivity
         end.
Qed.

(** X2. A tag byte without a reader (among them the big-number tags 110
    and 111 and the large-tuple tag 105) is refused with [ErrUnknownType]
    as soon as it is read: the term is nil and the payload stays unread. *)
Theorem readTerm_unknown_tag (b : byte) (rest : list byte) (e : option Error) :
  supportedTag (byte.unsigned b) = false ->
  readTerm (mkReader (b :: rest) e)
  = Ret VNil (Some ErrUnknownType) (mkReader rest e) /\
  DecodeFrom (mkReader (uint8 VersionTag :: b :: rest) e)
  = Ret VNil (Some ErrUnknownType) (mkReader rest e).
Proof.
  intros Hs. pose proof (unsupported_tag_refused b rest e Hs) as Hr.
  split; [exact Hr|].
  unfold DecodeFrom. rewrite read1_cons. unfold andThen, uint8.
  rewrite unsigned_of_Z_small by (unfold VersionTag; lia).
  change (negb (VersionTag =? VersionTag)) with false. cbv iota. exact Hr.
Qed.

Lemma read4_any (u : Z) (rest : list byte) (e : option Error) :
  0 <= u < 4294967296 ->
  read4 (mkReader (write4 u ++ rest) e) = Ret (int32 u) None (mkReader rest e).
Proof.
  intros Hu.
  destruct (write4_value u Hu) as (b0 & b1 & b2 & b3 & Hw & Hv).
  rewrite Hw. unfold read4.
  destruct (read_exact [b0; b1; b2; b3] rest e 4 eq_refl) as [Hr Ha].
  rewrite Hr, Ha. rewrite be32_value, Hv. reflexivity.
Qed.

(** X12. A 4-byte size field is read as a signed 32-bit integer.  With the
    top bit set it is negative: a list of that size panics when its slice
    is made, a binary of that size is empty and leaves its payload
    unread. *)
Theorem negative_size_field (u : Z) (rest : list byte) (e : option Error) :
  2147483648 <= u < 4294967296 ->
  read4 (mkReader (write4 u ++ rest) e)
  = Ret (u - 4294967296) None (mkReader rest e) /\
  readTerm (mkReader (write1 (uint8 ListTag) ++ write4 u ++ rest) e) = Panic /\
  readTerm (mkReader (write1 (uint8 BinTag) ++ write4 u ++ rest) e)
  = Ret (VBytes []) None (mkReader rest e).
Proof.
  intros Hu.
  assert (H4 : read4 (mkReader (write4 u ++ rest) e)
               = Ret (u - 4294967296) None (mkReader rest e)).
  { rewrite read4_any by lia. unfold int32.
    replace (u <? 2 ^ 31) with false by (symmetry; apply Z.ltb_ge; simpl; lia).
    reflexivity. }
  split; [exact H4|]. split.
  - rewrite readTerm_tagged by (unfold ListTag; lia).
    unfold dispatch. cbn [Z.eqb ListTag SmallIntTag IntTag SmallBignumTag
      LargeBignumTag FloatTag AtomTag SmallTupleTag LargeTupleTag NilTag
      StringTag Pos.eqb].
    unfold readList. rewrite H4. unfold andThen.
    replace (u - 4294967296 <? 0) with true by (symmetry; apply Z.ltb_lt; lia).
    reflexivity.
  - rewrite readTerm_tagged by (unfold BinTag; lia).
    unfold dispatch. cbn [Z.eqb BinTag ListTag SmallIntTag IntTag SmallBignumTag
      LargeBignumTag FloatTag AtomTag SmallTupleTag LargeTupleTag NilTag
      StringTag Pos.eqb].
    unfold readBin. rewrite H4. unfold andThen.
    unfold ReadAll, LimitReader, advance. cbn [pending ending].
    replace (u - 4294967296 <=? len rest) with true
      by (symmetry; apply Z.leb_le; pose proof (len_nonneg rest); lia).
    replace (Z.to_nat (u - 4294967296)) with 0%nat by lia.
    reflexivity.
Qed.

Ltac pick T :=
  rewrite readTerm_tagged by (unfold T; lia);
  unfold dispatch;
  repeat match goal with
         | |- context [T =? ?U] =>
             let b := eval vm_compute in (T =? U) in
             change (T =? U) with b; cbv iota
         end.


(** X11. After the nil tag the decoder reads one more byte and drops it:
    a nil followed by another term swallows that term's tag, and the
    stream is read on from the byte after it.  At the very end of the
    input nothing is there to drop, and the result is the empty
    sequence.  So the encoding of a pair of nil and a small integer [n]
    is decoded from [n] taken as a tag, and refused when [n] is none. *)
Theorem readNil_drops_next_byte (b : byte) (rest : list byte)
  (e : option Error) (n : Z) :
  readTerm (mkReader (write1 (uint8 NilTag) ++ b :: rest) e)
  = Ret (VSlice []) None (mkReader rest e) /\
  readTerm (NewBuffer (write1 (uint8 NilTag))) = Ret (VSlice []) None (NewBuffer []) /\
  (0 <= n <= 255 -> supportedTag n = false ->
   Decode (emitted (Encode (VSlice [VNil; VInt n])))
   = Ret VNil (Some ErrUnknownType) (NewBuffer [])).
Proof.
  assert (Hnil : forall b' rest' e',
            readTerm (mkReader (write1 (uint8 NilTag) ++ b' :: rest') e')
            = Ret (VSlice []) None (mkReader rest' e')).
  { intros b' rest' e'. pick NilTag. unfold readNil.
    destruct (read_exact [b'] rest' e' 1 eq_refl) as [Hr Ha].
    cbn [app] in Hr, Ha. rewrite Hr, Ha. reflexivity. }
  split; [apply Hnil|]. split; [reflexivity|].
  intros Hn Hs. rewrite Encode_emitted.
  rewrite writeSmallTuple_done by (cbn [All writeTag status snd]; auto).
  unfold encodings. cbn [emitted fst map concat writeTag].
  rewrite writeNumber_small by assumption.
  rewrite Decode_versioned. unfold NewBuffer.
  pick SmallTupleTag. unfold readSmallTuple. rewrite read1_write1.
  unfold andThen, uint8 at 1. rewrite unsigned_of_Z_small by (cbn; lia).
  change (Z.to_nat (len [VNil; VInt n])) with 2%nat. cbn [tupleLoop].
  unfold writeNil, writeSmallInt. rewrite app_nil_r.
  change (write1 (uint8 NilTag) ++ write1 (uint8 SmallIntTag) ++ write1 (uint8 n))
    with (write1 (uint8 NilTag) ++ uint8 SmallIntTag :: [uint8 n]).
  rewrite Hnil. cbn [isAtom app].
  rewrite unsupported_tag_refused
    by (unfold uint8; rewrite unsigned_of_Z_small by lia; exact Hs).
  reflexivity.
Qed.

(** X8. A term that is read without error takes at least one byte from
    the stream, and no outcome of the decoder ever leaves more bytes than
    it found: decoding the terms of a stream one after the other ends. *)
Theorem readTerm_consumes (r r' : Reader) (v : Value) :
  readTerm r = Ret v None r' -> (remaining r' < remaining r)%nat.
Proof.
  unfold readTerm. rewrite readTag_step. unfold andThen.
  destruct (read1 r) as [tag [e1|] r1| |] eqn:H1; try discriminate.
  intros H. apply read1_consumes in H1.
  apply (dispatch_shrinks _ tag (readTag_shrinks _)) in H. lia.
Qed.

Lemma readTerm_reads_back (x : Value) (rest : list byte) (e : option Error) :
  reads_back x ->
  readTerm (mkReader (emitted (writeTag x) ++ rest) e)
  = Ret (normalise x) None (mkReader rest e).
Proof.
  intros [_ Hx]. unfold readTerm. apply Hx. cbn [pending].
  rewrite length_app. lia.
Qed.

Lemma listLoop_readTerm (rest : list byte) (e : option Error) (l : list Value) :
  All reads_back l ->
  forall elems,
  listLoop readTerm (length l) elems (mkReader (encodings l ++ rest) e)
  = Ret (elems ++ map normalise l) None (mkReader rest e).
Proof.
  induction l as [|x l IH]; intros Hall elems.
  - simpl. rewrite app_nil_r. reflexivity.
  - destruct Hall as [Hx Hl]. unfold encodings in *. cbn [map concat length listLoop].
    rewrite <- app_assoc, readTerm_reads_back by assumption.
    rewrite IH by assumption. rewrite <- app_assoc. reflexivity.
Qed.

Lemma tupleLoop_readTerm (rest : list byte) (e : option Error)
  (t : list Value) (more : nat) :
  All (fun x => reads_back x /\ isAtom BertAtom x = false) t ->
  forall tuple,
  tupleLoop readTerm (length t + more) tuple (mkReader (encodings t ++ rest) e)
  = tupleLoop readTerm more (tuple ++ map normalise t) (mkReader rest e).
Proof.
  induction t as [|x t IH]; intros Hall tuple.
  - simpl. rewrite app_nil_r. reflexivity.
  - destruct Hall as [[Hx Hb] Ht]. unfold encodings in *.
    cbn [map concat length Nat.add tupleLoop].
    rewrite <- app_assoc, readTerm_reads_back by assumption.
    rewrite isAtom_normalise, Hb, IH by assumption.
    rewrite <- app_assoc. reflexivity.
Qed.

Lemma All_representable_reads_back (l : list Value) :
  All representable l -> All reads_back l.
Proof. apply All_impl. apply representable_reads_back. Qed.

Lemma All_representable_not_bert (t : list Value) :
  All (fun x => representable x /\ isAtom BertAtom x = false) t ->
  All (fun x => reads_back x /\ isAtom BertAtom x = false) t.
Proof.
  apply All_impl. intros x [Hx Hb]. split; [|exact Hb].
  apply representable_reads_back. exact Hx.
Qed.


(** X10. The byte that closes a list is read and dropped without a look
    at its value: any byte in the place of the nil tag gives the same
    list.  When the input ends right after the last element, the read of
    that byte panics. *)
Theorem readList_terminator_unchecked (l : list Value) (b : byte)
  (rest : list byte) (e : option Error) :
  len l < 2147483648 -> All representable l ->
  let body := write1 (uint8 ListTag) ++ write4 (uint32 (len l)) ++ encodings l in
  readTerm (mkReader (body ++ b :: rest) e)
  = Ret (VSlice (map normalise l)) None (mkReader rest e) /\
  readTerm (NewBuffer body) = Panic.
Proof.
  intros Hlen Hall body. pose proof (len_nonneg l) as Hpos.
  apply All_representable_reads_back in Hall.
  assert (Hloop : forall tail e',
            readList readTerm (mkReader (write4 (uint32 (len l)) ++ encodings l ++ tail) e')
            = andThen (Ret (map normalise l) None (mkReader tail e')) []
                (fun elems r2 => match read1 r2 with
                                 | Ret _ _ r3 => Ret elems None r3
                                 | Panic => Panic
                                 | OutOfFuel => OutOfFuel
                                 end)).
  { intros tail e'. unfold readList. rewrite read4_write4 by lia.
    unfold andThen at 1.
    replace (len l <? 0) with false by (symmetry; apply Z.ltb_ge; lia).
    unfold len. rewrite Nat2Z.id, listLoop_readTerm by assumption.
    reflexivity. }
  unfold body. split.
  - rewrite <- !app_assoc. pick ListTag. rewrite Hloop. unfold andThen.
    rewrite read1_cons. reflexivity.
  - unfold NewBuffer. rewrite <- (app_nil_r (encodings l)).
    pick ListTag. rewrite Hloop. reflexivity.
Qed.

(** X16. The atom [bert] ends a small tuple wherever it stands: the
    elements read before it are dropped, the elements after the next term
    are left unread, and the result is that next term, with the atoms
    [nil], [true] and [false] turned into nil, true and false. *)
Theorem bert_anywhere_in_tuple (t : list Value) (size : Z)
  (rest : list byte) (e : option Error) :
  All (fun x => representable x /\ isAtom BertAtom x = false) t ->
  len t < size <= 255 ->
  readTerm (mkReader (write1 (uint8 SmallTupleTag) ++ write1 (uint8 size) ++
                      encodings t ++ writeAtom BertAtom ++ rest) e)
  = readComplex readTerm (mkReader rest e).
Proof.
  intros Hall Hsize. pose proof (len_nonneg t) as Hpos.
  apply All_representable_not_bert in Hall.
  pick SmallTupleTag. unfold readSmallTuple. rewrite read1_write1.
  unfold andThen, uint8 at 1. rewrite unsigned_of_Z_small by lia.
  replace (Z.to_nat size) with (length t + S (Z.to_nat (size - len t - 1)))%nat
    by (unfold len in *; lia).
  rewrite tupleLoop_readTerm by assumption. cbn [tupleLoop].
  assert (Hbert : reads_back (VAtom BertAtom)).
  { apply representable_reads_back. cbn [representable]. reflexivity. }
  pose proof (readTerm_reads_back (VAtom BertAtom) rest e Hbert) as Hb.
  cbn [writeTag emitted fst normalise] in Hb. rewrite Hb.
  reflexivity.
Qed.


(** ** Further properties of the encoder *)

Lemma writeEach_failed_at (pre post : list Value) (x : Value)
  (out : list byte) (st : Status) :
  All (fun v => status (writeTag v) = Done) pre ->
  writeTag x = (out, st) -> st <> Done ->
  writeEach writeTag (pre ++ x :: post) = (encodings pre ++ out, st).
Proof.
  intros Hpre Hx Hst. induction pre as [|p pre IH]; cbn [app writeEach].
  - rewrite Hx. destruct st; try reflexivity. congruence.
  - destruct Hpre as [Hp Hpre]. destruct (writeTag p) as [o s] eqn:Hw.
    cbn [status snd] in Hp. subst s. rewrite IH by assumption.
    unfold encodings. cbn [map concat]. rewrite Hw. cbn [emitted fst].
    rewrite app_assoc. reflexivity.
Qed.

(** X5. Encoding is not undone on failure: when an element of a tuple or
    of a list cannot be encoded, the bytes of the elements before it (and
    whatever the failing element wrote itself) have been written, the
    elements after it have not, and the element's error is returned; a
    list still gets its closing nil tag. *)
Theorem failed_element_leaves_partial_output (pre post : list Value)
  (x : Value) (out : list byte) (err : Error) :
  All (fun v => status (writeTag v) = Done) pre ->
  writeTag x = (out, Failed err) ->
  let all := pre ++ x :: post in
  writeTag (VSlice all)
  = (write1 (uint8 SmallTupleTag) ++ write1 (uint8 (len all)) ++
     encodings pre ++ out, Failed err) /\
  writeTag (VArray all)
  = (write1 (uint8 ListTag) ++ write4 (uint32 (len all)) ++
     encodings pre ++ out ++ writeNil, Failed err) /\
  Encode (VSlice all)
  = (write1 (uint8 VersionTag) ++ write1 (uint8 SmallTupleTag) ++
     write1 (uint8 (len all)) ++ encodings pre ++ out, Failed err).
Proof.
  intros Hpre Hx all.
  assert (Hw : writeEach writeTag all = (encodings pre ++ out, Failed err)).
  { apply writeEach_failed_at; [assumption..|discriminate]. }
  assert (Ht : writeTag (VSlice all)
               = (write1 (uint8 SmallTupleTag) ++ write1 (uint8 (len all)) ++
                  encodings pre ++ out, Failed err)).
  { cbn [writeTag]. unfold writeSmallTuple. rewrite Hw. reflexivity. }
  split; [exact Ht|]. split.
  - cbn [writeTag]. unfold writeList. rewrite Hw.
    rewrite <- !app_assoc. reflexivity.
  - unfold Encode, EncodeTo. rewrite Ht. reflexivity.
Qed.

Lemma writeEach_only_error (t : list Value) :
  All (fun v => forall e, status (writeTag v) = Failed e -> e = ErrUnknownType) t ->
  forall e, status (writeEach writeTag t) = Failed e -> e = ErrUnknownType.
Proof.
  induction t as [|x t IH]; cbn [writeEach All].
  - intros _ e H. discriminate.
  - intros [Hx Ht] e. destruct (writeTag x) as [o s].
    cbn [status snd] in Hx. destruct s.
    + specialize (IH Ht e). destruct (writeEach writeTag t) as [o' s'].
      exact IH.
    + cbn [status snd]. apply Hx.
    + discriminate.
Qed.

(** X3. The one error the encoder returns is [ErrUnknownType]: it never
    returns [ErrUintType], unsigned integers are encoded. *)
Theorem Encode_only_error (x : Value) (e : Error) :
  status (Encode x) = Failed e -> e = ErrUnknownType.
Proof.
  unfold Encode, EncodeTo.
  assert (H : forall e, status (writeTag x) = Failed e -> e = ErrUnknownType).
  { induction x as [t IH | l IH | items IH | v Hleaf] using Value_nested_ind.
    - intros e'. cbn [writeTag]. unfold writeSmallTuple.
      pose proof (writeEach_only_error t IH e') as Hw.
      destruct (writeEach writeTag t). exact Hw.
    - intros e'. cbn [writeTag]. unfold writeList.
      pose proof (writeEach_only_error l IH e') as Hw.
      destruct (writeEach writeTag l) as [o s]. destruct s; exact Hw.
    - intros e'. cbn [writeTag]. unfold writeList.
      pose proof (writeEach_only_error items IH e') as Hw.
      destruct (writeEach writeTag items) as [o s]. destruct s; exact Hw.
    - intros e'. destruct v as [| b | n | n | f | s | a | b | t | l | bytes bits | items | n |];
        try contradiction; cbn [writeTag status snd];
        try discriminate; try congruence.
      + unfold writeFloat. destruct (31 - len (formatFloat f) <? 0); discriminate.
      + destruct (negb (bits mod 8 =? 0)); [discriminate|].
        destruct (slice_to bytes (bits / 8)); discriminate. }
  specialize (H e). destruct (writeTag x). exact H.
Qed.

(** X4. A list is closed by the nil tag whenever its encoding returns,
    with or without an error, and also when it is empty: the empty list
    is the six bytes 108, 0, 0, 0, 0, 106.  The [List] wrapper is encoded
    as the array of its items. *)
Theorem list_always_terminated (l : list Value) :
  (status (writeTag (VArray l)) <> Panicked ->
   exists body,
     emitted (writeTag (VArray l))
     = write1 (uint8 ListTag) ++ write4 (uint32 (len l)) ++ body ++ writeNil) /\
  writeTag (VList l) = writeTag (VArray l) /\
  writeTag (VArray []) = (write1 (uint8 ListTag) ++ write4 0 ++ writeNil, Done).
Proof.
  split; [|split; reflexivity].
  cbn [writeTag]. unfold writeList.
  destruct (writeEach writeTag l) as [out st].
  destruct st; cbn [status snd emitted fst]; intros H;
    try (exists out; rewrite <- !app_assoc; reflexivity).
  congruence.
Qed.

Lemma firstn_len {A : Type} (l : list A) (k : Z) :
  0 <= k <= len l -> len (firstn (Z.to_nat k) l) = k.
Proof. intros H. unfold len in *. rewrite length_firstn. lia. Qed.

(** X6. A bitstring of [bits] bits is written with the tag 77, the byte
    count [(bits + 7) / 8], the bit count [bits mod 8] and exactly that
    many payload bytes: a shorter buffer is padded with zero bytes on the
    left, a longer one is cut after the count. *)
Theorem writeBitstring_payload (a : list byte) (bits : Z) :
  0 <= bits <= 255 ->
  let size := (bits + 7) / 8 in
  let payload := firstn (Z.to_nat size) (pad_left a size) in
  writeBitstring a bits
  = write1 (uint8 BitTag) ++ write4 size ++ write1 (uint8 (bits mod 8)) ++ payload /\
  len payload = size /\
  len (writeBitstring a bits) = 6 + size /\
  (len a <= size -> payload = repeat Byte.x00 (Z.to_nat (size - len a)) ++ a) /\
  (size <= len a -> payload = firstn (Z.to_nat size) a).
Proof.
  intros Hb size payload. pose proof (len_nonneg a) as Hpos.
  assert (Hs : 0 <= size <= 32) by (unfold size; Z.div_mod_to_equations; lia).
  assert (Hpad : size <= len (pad_left a size)).
  { unfold pad_left. rewrite len_app. unfold len at 1. rewrite repeat_length. lia. }
  assert (Hp : len payload = size) by (apply firstn_len; lia).
  split; [|split; [exact Hp|split; [|split]]].
  - unfold writeBitstring. fold size. fold payload.
    unfold uint32. rewrite Z.mod_small by (simpl; lia). reflexivity.
  - unfold writeBitstring. fold size. fold payload.
    rewrite !len_app, Hp.
    change (len (write1 (uint8 BitTag))) with 1.
    change (len (write4 (uint32 size))) with 4.
    change (len (write1 (uint8 (bits mod 8)))) with 1. lia.
  - intros Hle. unfold payload, pad_left.
    apply firstn_all2. rewrite length_app, repeat_length. unfold len in *. lia.
  - intros Hge. unfold payload, pad_left.
    replace (Z.to_nat (size - len a)) with 0%nat by lia. reflexivity.
Qed.

(** X7. A float is written as the tag 99 and exactly 31 bytes: its text
    followed by zero bytes.  A text longer than 31 bytes is written whole,
    and the encoder panics where it would make the padding. *)
Theorem writeFloat_fixed_width (f : float32) :
  (len (formatFloat f) <= 31 ->
   status (writeFloat f) = Done /\
   len (emitted (writeFloat f)) = 32 /\
   emitted (writeFloat f)
   = write1 (uint8 FloatTag) ++ formatFloat f ++
     repeat Byte.x00 (Z.to_nat (31 - len (formatFloat f)))) /\
  (31 < len (formatFloat f) ->
   writeFloat f = (write1 (uint8 FloatTag) ++ formatFloat f, Panicked)).
Proof.
  pose proof (len_nonneg (formatFloat f)) as Hpos. unfold writeFloat. split.
  - intros Hle.
    replace (31 - len (formatFloat f) <? 0) with false
      by (symmetry; apply Z.ltb_ge; lia).
    cbn [status snd emitted fst]. split; [reflexivity|]. split; [|reflexivity].
    rewrite !len_app. unfold len at 3. rewrite repeat_length.
    change (len (write1 (uint8 FloatTag))) with 1. lia.
  - intros Hgt.
    replace (31 - len (formatFloat f) <? 0) with true
      by (symmetry; apply Z.ltb_lt; lia).
    reflexivity.
Qed.

(** X18. Whatever a value is, the first byte written for it is one of the
    eleven tags 97, 98, 110, 99, 100, 107, 109, 104, 108, 77 and 106: the
    large-tuple tag 105 and the large big-number tag 111 are never
    written. *)
Theorem writeTag_first_byte (x : Value) (b : byte) (rest : list byte) :
  emitted (writeTag x) = b :: rest -> writtenTag (byte.unsigned b) = true.
Proof.
  destruct x as [| b0 | n | n | f | s | a | b0 | t | l | bytes bits | items | n |];
    cbn [writeTag emitted fst].
  - intros H. injection H as <- _. reflexivity.
  - discriminate.
  - unfold writeNumber, writeBignum.
    destruct (IsInt64 n); cbv zeta;
      repeat match goal with
             | |- context [if ?c then _ else _] => destruct c
             end;
      intros H; injection H as <- _; reflexivity.
  - unfold writeNumber, writeBignum.
    destruct (IsInt64 n); cbv zeta;
      repeat match goal with
             | |- context [if ?c then _ else _] => destruct c
             end;
      intros H; injection H as <- _; reflexivity.
  - unfold writeFloat. destruct (31 - len (formatFloat f) <? 0);
      intros H; injection H as <- _; reflexivity.
  - intros H. injection H as <- _. reflexivity.
  - intros H. injection H as <- _. reflexivity.
  - intros H. injection H as <- _. reflexivity.
  - unfold writeSmallTuple. destruct (writeEach writeTag t).
    intros H. injection H as <- _. reflexivity.
  - unfold writeList. destruct (writeEach writeTag l) as [o s'].
    destruct s'; intros H; injection H as <- _; reflexivity.
  - destruct (negb (bits mod 8 =? 0)).
    + intros H. injection H as <- _. reflexivity.
    + destruct (slice_to bytes (bits / 8)); [|discriminate].
      intros H. injection H as <- _. reflexivity.
  - unfold writeList. destruct (writeEach writeTag items) as [o s'].
    destruct s'; intros H; injection H as <- _; reflexivity.
  - unfold writeNumber, writeBignum.
    destruct (IsInt64 n); cbv zeta;
      repeat match goal with
             | |- context [if ?c then _ else _] => destruct c
             end;
      intros H; injection H as <- _; reflexivity.
  - discriminate.
Qed.

(** ** Binding by position *)

Lemma setRequestField_out_of_range (i : nat) (e : Value) (req : Request) :
  (4 <= i)%nat -> setRequestField i e req = None.
Proof.
  intros Hi. do 4 (destruct i as [|i]; [lia|]). destruct e; reflexivity.
Qed.

Lemma bindLoop_overlong (elems : list Value) (n i : nat) (req : Request) :
  (0 < n)%nat -> (4 < i + n)%nat ->
  bindLoop (VSlice elems) i n req = None.
Proof.
  revert i req. induction n as [|n IH]; intros i req Hn Hin; [lia|].
  cbn [bindLoop]. destruct (indexElem (VSlice elems) i) as [e|]; [|reflexivity].
  cbn [setField Request_Settable].
  destruct (le_lt_dec 4 i) as [Hge | Hlt].
  - rewrite setRequestField_out_of_range by assumption. reflexivity.
  - destruct (setRequestField i e req) as [req'|]; [|reflexivity].
    apply IH; lia.
Qed.

(** X14. A decoded tuple is bound to a Request by position, with no check
    of its length: of a tuple of [k <= 4] fields of the right types the
    first [k] fields are taken and the other fields of the Request keep
    their values, the empty tuple changes nothing, and a tuple of more
    than four elements panics.  The error of the decoder plays no part. *)
Theorem UnmarshalFrom_binds_by_position (r r' : Reader) (elems : list Value)
  (err : option Error) (req : Request) :
  DecodeFrom r = Ret (VSlice elems) err r' ->
  ((4 < length elems)%nat -> UnmarshalFrom r req = Panic) /\
  (forall (k : nat) (kind module function : list byte) (args : list Value),
     elems = firstn k [VAtom kind; VAtom module; VAtom function; VSlice args] ->
     UnmarshalFrom r req
     = Ret (mkRequest (if (0 <? k)%nat then kind else Kind req)
                      (if (1 <? k)%nat then module else Module req)
                      (if (2 <? k)%nat then function else Function req)
                      (if (3 <? k)%nat then args else Arguments req))
           None r').
Proof.
  intros Hd. unfold UnmarshalFrom. rewrite Hd.
  cbn [isStruct Request_Settable reflectLen]. split.
  - intros Hlen. rewrite bindLoop_overlong by lia. reflexivity.
  - intros k kind module function args Hel.
    do 4 (destruct k as [|k]; [subst elems; destruct req; reflexivity|]).
    cbn [firstn] in Hel. rewrite firstn_nil in Hel. subst elems.
    destruct req; reflexivity.
Qed.

(** ** What the decoder builds *)

Lemma LimitReader_length (r : Reader) (n : Z) :
  0 <= n -> len (pending (LimitReader r n)) <= n.
Proof.
  intros Hn. unfold LimitReader.
  destruct (Z.leb_spec n (len (pending r))); cbn [pending].
  - unfold len in *. rewrite length_firstn. lia.
  - lia.
Qed.

Lemma read1_yields : yields (fun a => 0 <= a <= 255) read1.
Proof.
  intros r. unfold read1.
  destruct (ReadAll (LimitReader r 1)) as [bits [e|]]; [lia|].
  destruct bits as [|b0 bits]; [exact I|].
  rewrite uint8_unsigned. pose proof (byte_range b0). lia.
Qed.

Lemma read2_yields : yields (fun a => 0 <= a <= 65535) read2.
Proof.
  intros r. unfold read2.
  destruct (ReadAll (LimitReader r 2)) as [bits [e|]]; [lia|].
  destruct bits as [|b0 [|b1 bits]]; try exact I.
  rewrite be16_value. pose proof (byte_range b0). pose proof (byte_range b1). lia.
Qed.

Lemma read4_yields : yields (fun a => -2147483648 <= a <= 2147483647) read4.
Proof.
  intros r. unfold read4.
  destruct (ReadAll (LimitReader r 4)) as [bits [e|]]; [lia|].
  destruct bits as [|b0 [|b1 [|b2 [|b3 bits]]]]; try exact I.
  rewrite be32_value. pose proof (byte_range b0). pose proof (byte_range b1).
  pose proof (byte_range b2). pose proof (byte_range b3).
  unfold int32. change (2 ^ 31) with 2147483648. change (2 ^ 32) with 4294967296.
  match goal with |- context [?a <? ?b] => destruct (Z.ltb_spec a b) end; lia.
Qed.

Lemma readString_yields : yields (fun s => len s <= 65535) readString.
Proof.
  intros r. unfold readString, andThen.
  pose proof (read2_yields r) as H2.
  destruct (read2 r) as [size [e|] r1| |]; try exact I.
  - change (len (@nil byte)) with 0. lia.
  - pose proof (LimitReader_length r1 size) as Hl.
    unfold ReadAll. destruct (ending (LimitReader r1 size)).
    + change (len (@nil byte)) with 0. lia.
    + lia.
Qed.

Lemma readBit_yields : yields decoded_shape readBit.
Proof.
  intros r. unfold readBit, andThen.
  destruct (read4 r) as [size [e|] r1| |]; try exact I.
  - cbn [decoded_shape]. lia.
  - pose proof (read1_yields r1) as H1.
    destruct (read1 r1) as [bits [e|] r2| |]; try exact I.
    + cbn [decoded_shape]. lia.
    + destruct (ReadAll (LimitReader r2 size)) as [bytes [e|]];
        cbn [decoded_shape]; [lia|].
      unfold uint8. rewrite unsigned_of_Z_small; lia.
Qed.

Lemma asTerm_yields {A : Type} (inj : A -> Value) (P : A -> Prop)
  (rd : Reader -> Res A) :
  yields P rd -> (forall a, P a -> decoded_shape (inj a)) ->
  yields decoded_shape (fun r => asTerm inj (rd r)).
Proof.
  intros Hrd Hinj r. specialize (Hrd r). unfold asTerm.
  destruct (rd r); auto.
Qed.

Lemma readComplex_yields (rd : Reader -> Res Value) :
  yields decoded_shape rd -> yields decoded_shape (readComplex rd).
Proof.
  intros Hrd r. specialize (Hrd r). unfold readComplex.
  destruct (rd r) as [term [e|] r1| |]; auto.
  destruct (isAtom NilAtom term); [exact I|].
  destruct (isAtom TrueAtom term); [exact I|].
  destruct (isAtom FalseAtom term); [exact I|exact Hrd].
Qed.

Lemma All_app {A : Type} (P : A -> Prop) (l1 l2 : list A) :
  All P l1 -> All P l2 -> All P (l1 ++ l2).
Proof.
  induction l1 as [|x l1 IH]; cbn [app All]; [auto|].
  intros [Hx H1] H2. auto.
Qed.

Lemma tupleLoop_yields (rd : Reader -> Res Value) (n : nat) :
  yields decoded_shape rd ->
  forall tuple, All decoded_shape tuple ->
  yields decoded_shape (tupleLoop rd n tuple).
Proof.
  intros Hrd. induction n as [|n IH]; intros tuple Ht r; cbn [tupleLoop].
  - exact Ht.
  - pose proof (Hrd r) as H.
    destruct (rd r) as [term [e|] r1| |]; auto.
    + exact I.
    + destruct (isAtom BertAtom term).
      * apply readComplex_yields. assumption.
      * apply IH. apply All_app; [assumption|]. cbn [All]. auto.
Qed.

Lemma listLoop_yields (rd : Reader -> Res Value) (n : nat) :
  yields decoded_shape rd ->
  forall elems, All decoded_shape elems ->
  yields (All decoded_shape) (listLoop rd n elems).
Proof.
  intros Hrd. induction n as [|n IH]; intros elems Ht r; cbn [listLoop].
  - exact Ht.
  - pose proof (Hrd r) as H.
    destruct (rd r) as [term [e|] r1| |]; auto.
    + exact I.
    + apply IH. apply All_app; [assumption|]. cbn [All]. auto.
Qed.

Lemma readNil_yields : yields (All decoded_shape) readNil.
Proof.
  intros r. unfold readNil.
  destruct (ReadAll (LimitReader r 1)) as [bits [e|]]; exact I.
Qed.

Lemma readList_yields (rd : Reader -> Res Value) :
  yields decoded_shape rd -> yields (All decoded_shape) (readList rd).
Proof.
  intros Hrd r. unfold readList, andThen.
  destruct (read4 r) as [size [e|] r1| |]; try exact I.
  destruct (size <? 0); [exact I|].
  pose proof (listLoop_yields rd (Z.to_nat size) Hrd [] I r1) as Hl.
  destruct (listLoop rd (Z.to_nat size) [] r1) as [elems [e|] r2| |];
    try exact I.
  destruct (read1 r2); try exact I. exact Hl.
Qed.

Lemma dispatch_yields (rd : Reader -> Res Value) (tag : Z) :
  yields decoded_shape rd -> yields decoded_shape (dispatch rd tag).
Proof.
  intros Hrd. unfold dispatch.
  repeat match goal with
         | |- yields _ (fun r => if ?c then _ else _) => destruct c
         | |- yields _ (if ?c then _ else _) => destruct c
         end;
    try solve [intros r; exact I].
  - apply (asTerm_yields VInt (fun a => 0 <= a <= 255)); [apply read1_yields|].
    intros a Ha. cbn [decoded_shape]. lia.
  - apply (asTerm_yields VInt _ _ read4_yields). auto.
  - apply (asTerm_yields VFloat (fun _ => True)); [|auto].
    intros r. destruct (readFloat r); exact I.
  - apply (asTerm_yields VAtom _ _ readString_yields). auto.
  - intros r. unfold readSmallTuple, andThen.
    destruct (read1 r) as [size [e|] r1| |]; try exact I.
    apply tupleLoop_yields; [assumption|exact I].
  - apply (asTerm_yields VSlice _ _ readNil_yields). auto.
  - apply (asTerm_yields VString _ _ readString_yields). auto.
  - apply (asTerm_yields VSlice _ _ (readList_yields rd Hrd)). auto.
  - apply (asTerm_yields VBytes (fun _ => True)); [|auto].
    intros r. destruct (readBin r); exact I.
  - apply readBit_yields.
Qed.

Lemma readTag_yields (fuel : nat) : yields decoded_shape (readTag fuel).
Proof.
  induction fuel as [|fuel IH]; intros r; [exact I|].
  rewrite readTag_step. unfold andThen.
  destruct (read1 r) as [tag [e|] r1| |]; try exact I.
  apply dispatch_yields. assumption.
Qed.

(** X17. Whatever the input, a term handed back by the decoder (with or
    without an error) holds only integers of the 32-bit range, atoms and
    strings of at most 65535 bytes, bit counts of at most 255, floats,
    binaries, booleans, nil and sequences of these: never an unsigned
    integer, a big number, an array or a [List]. *)
Theorem DecodeFrom_shape (r : Reader) :
  match DecodeFrom r with
  | Ret v _ _ => decoded_shape v
  | _ => True
  end.
Proof.
  unfold DecodeFrom, andThen.
  destruct (read1 r) as [version [e|] r1| |]; try exact I.
  destruct (negb (version =? VersionTag)); [exact I|].
  apply readTag_yields.
Qed.





(** X21. A bitstring written by the encoder without big numbers is read
    back as it was, bytes and bit count alike, whatever the bit count. *)
Theorem writeBitstring'_roundtrip (bytes : list byte) (bits : Z) :
  len bytes <= 2147483647 -> 0 <= bits <= 255 ->
  status (Encode' (VBitstring bytes bits)) = Done /\
  Decode (emitted (Encode' (VBitstring bytes bits)))
  = Ret (VBitstring bytes bits) None (NewBuffer []).
Proof.
  intros Hlen Hbits. pose proof (len_nonneg bytes) as Hpos.
  unfold Encode', EncodeTo'. cbn [writeTag' status snd emitted fst].
  split; [reflexivity|].
  rewrite Decode_versioned. unfold writeBitstring', NewBuffer.
  rewrite <- (app_nil_r bytes) at 2.
  rewrite readTerm_tagged by (unfold BitTag; lia).
  unfold dispatch.
  repeat match goal with
         | |- context [BitTag =? ?U] =>
             let b := eval vm_compute in (BitTag =? U) in
             change (BitTag =? U) with b; cbv iota
         end.
  unfold readBit. rewrite read4_write4 by lia. unfold andThen.
  rewrite read1_write1.
  destruct (read_exact bytes [] None (len bytes) eq_refl) as [Hr Ha].
  rewrite Hr, Ha. unfold uint8.
  rewrite byte.of_Z_unsigned, unsigned_of_Z_small by lia.
  reflexivity.
Qed.

End Codec.

(** * Concrete inputs

    From here on the float text codec is the one of the test fixtures. *)

(** ** Fixtures of encode_test.go *)

Example encode_small_integer :
  Encode (VInt 1) = (digits_of [131; 97; 1], Done).
Proof. vm_compute. reflexivity. Qed.

Example encode_integer :
  Encode (VInt 257) = (digits_of [131; 98; 0; 0; 1; 1], Done) /\
  Encode (VInt (-1)) = (digits_of [131; 98; 255; 255; 255; 255], Done) /\
  Encode (VInt (-5000)) = (digits_of [131; 98; 255; 255; 236; 120], Done).
Proof. vm_compute. repeat split. Qed.

Example encode_float :
  Encode (VFloat F_neg_pi)
  = (digits_of [131; 99; 45; 51; 46; 49; 52; 49; 53; 57; 48; 49; 49; 56; 52;
                48; 56; 50; 48; 51; 49; 50; 53; 48; 48; 101; 43; 48; 48; 0; 0;
                0; 0], Done).
Proof. vm_compute. reflexivity. Qed.

Example encode_tuple :
  Encode (VSlice [VAtom (digits_of [99; 111; 111; 114; 100]); VInt 23; VInt 42])
  = (digits_of [131; 104; 3; 100; 0; 5; 99; 111; 111; 114; 100; 97; 23; 97;
                42], Done).
Proof. vm_compute. reflexivity. Qed.

Example encode_nil_and_binary :
  Encode VNil = (digits_of [131; 106], Done) /\
  Encode (VBytes (digits_of [1; 2; 3; 4]))
  = (digits_of [131; 109; 0; 0; 0; 4; 1; 2; 3; 4], Done).
Proof. vm_compute. split; reflexivity. Qed.

Example encode_bitstring :
  Encode (VBitstring (digits_of [128]) 1)
  = (digits_of [131; 77; 0; 0; 0; 1; 1; 128], Done).
Proof. vm_compute. reflexivity. Qed.

Example encode_list :
  Encode (VArray [VInt 1; VInt 2; VInt 3])
  = (digits_of [131; 108; 0; 0; 0; 3; 97; 1; 97; 2; 97; 3; 106], Done) /\
  Encode (VList [VInt 1; VInt 2; VInt 3])
  = (digits_of [131; 108; 0; 0; 0; 3; 97; 1; 97; 2; 97; 3; 106], Done) /\
  Encode (VArray [VUint 1; VUint 2])
  = (digits_of [131; 108; 0; 0; 0; 2; 97; 1; 97; 2; 106], Done).
Proof. vm_compute. repeat split. Qed.

Example encode_beyond_32_bits :
  Encode (VUint 100000000000)
  = (digits_of [131; 110; 5; 0; 0; 232; 118; 72; 23], Done) /\
  Encode (VInt 100000000000)
  = (digits_of [131; 110; 5; 0; 0; 232; 118; 72; 23], Done) /\
  Encode (VInt (-100000000000))
  = (digits_of [131; 110; 5; 1; 0; 232; 118; 72; 23], Done).
Proof. vm_compute. repeat split. Qed.

Example marshal_response :
  MarshalResponse (VSlice [VAtom (digits_of [114; 101; 112; 108; 121]); VInt 42])
  = (digits_of [0; 0; 0; 13; 131; 104; 2; 100; 0; 5; 114; 101; 112; 108; 121;
                97; 42], Done).
Proof. vm_compute. reflexivity. Qed.

(** ** C1 *)



Example decode_nil_reads_one_byte_more :
  Decode (emitted (Encode VNil)) = Ret (VSlice []) None (NewBuffer []) /\
  Decode (emitted (Encode (VSlice [VNil; VInt 1])))
  = Ret VNil (Some ErrUnknownType) (NewBuffer []).
Proof. vm_compute. split; reflexivity. Qed.

(** ** C2 *)

Lemma C2_truncation_witness :
  read4 (NewBuffer (digits_of [0; 0; 1])) = Panic /\
  Decode (digits_of [131; 107; 0; 5; 97])
  = Ret (VString (digits_of [97])) None (NewBuffer []).
Proof.
  pose proof (C2_truncated_input_panics_or_succeeds
                (digits_of [0; 0; 1]) (digits_of [97]) 5) as H.
  destruct H as (H4 & _ & _ & _ & Hd & _).
  - simpl. lia.
  - vm_compute. split; reflexivity.
  - split; [exact H4|exact Hd].
Defined.

(** The version byte alone: the tag read panics. *)
Example decode_version_only : Decode (digits_of [131]) = Panic.
Proof. vm_compute. reflexivity. Qed.

(** ** C3 *)

(** A frame whose body is not a term: the decoder reports [ErrBadMagic],
    [UnmarshalRequest] panics inside reflect instead of returning it. *)
Example unmarshal_request_bad_magic :
  Decode (digits_of [0]) = Ret VNil (Some ErrBadMagic) (NewBuffer []) /\
  UnmarshalRequest (NewBuffer (digits_of [0; 0; 0; 1; 0])) = Panic.
Proof. vm_compute. split; reflexivity. Qed.

(** ** C4 *)

Lemma C4_boundaries_witness :
  writeTag (VInt 255) = (digits_of [97; 255], Done) /\
  writeTag (VInt 256) = (digits_of [98; 0; 0; 1; 0], Done) /\
  writeTag (VInt 2147483647) = (digits_of [98; 127; 255; 255; 255], Done) /\
  writeTag (VInt (-2147483648)) = (digits_of [98; 128; 0; 0; 0], Done) /\
  (exists payload,
     writeTag (VInt 2147483648) = (digits_of [110] ++ payload, Done)) /\
  (exists payload,
     writeTag (VInt (-2147483649)) = (digits_of [110] ++ payload, Done)).
Proof.
  split; [|split; [|split; [|split; [|split]]]].
  - apply (C4_integer_tag_by_magnitude 255); lia.
  - apply (C4_integer_tag_by_magnitude 256); lia.
  - apply (C4_integer_tag_by_magnitude 2147483647); lia.
  - apply (C4_integer_tag_by_magnitude (-2147483648)); lia.
  - apply (C4_integer_tag_by_magnitude 2147483648); lia.
  - apply (C4_integer_tag_by_magnitude (-2147483649)); lia.
Defined.

(** ** C5 *)

Lemma C5_layout_witness :
  writeNumber (-100000000000) = digits_of [110; 5; 1; 0; 232; 118; 72; 23] /\
  le_value (digits_of [0; 232; 118; 72; 23]) = 100000000000.
Proof.
  destruct (C5_bignum_layout (-100000000000)) as (Hw & Hv & _ & _).
  - lia.
  - split; [exact Hw|exact Hv].
Defined.

(** C5, as stated, fails on magnitudes of 256 bytes and more: for
    [2 ^ 2040] the count byte is 0 while 256 magnitude bytes follow. *)
Lemma C5_count_byte_wraps :
  nth_error (writeNumber (2 ^ 2040)) 1 = Some Byte.x00 /\
  length (rev (Bytes (2 ^ 2040))) = 256%nat /\
  length (writeNumber (2 ^ 2040)) = 259%nat.
Proof. vm_compute. repeat split. Qed.

(** ** C6 *)

Lemma C6_unsigned_witness :
  writeTag (VUint 42) = writeTag (VBigInt 42) /\
  writeTag (VUint 42) = (digits_of [97; 42], Done) /\
  writeTag (VUint 4294967295) = (digits_of [110; 4; 0; 255; 255; 255; 255], Done).
Proof.
  destruct (C6_unsigned_by_magnitude 42) as (Hbig & Hsmall & _); [lia|].
  split; [exact Hbig|]. split; [apply Hsmall; lia|].
  destruct (C6_unsigned_by_magnitude 4294967295) as (_ & _ & _ & Hb); [lia|].
  destruct Hb as [payload Hp]; [lia|]. vm_compute. reflexivity.
Defined.

(** C6, as stated, fails on every unsigned value that fits 31 bits: the
    fixture [uint(1)] is written with the small-integer tag. *)
Lemma C6_small_unsigned_is_not_bignum :
  Encode (VUint 1) = (digits_of [131; 97; 1], Done) /\
  hd_error (emitted (writeTag (VUint 1))) <> Some (uint8 SmallBignumTag).
Proof. split; [vm_compute; reflexivity|]. vm_compute. discriminate. Qed.

(** ** C7 *)



(** ** C8 *)

Lemma C8_bert_true_witness :
  Decode (digits_of [131; 104; 2; 100; 0; 4; 98; 101; 114; 116;
                     100; 0; 4; 116; 114; 117; 101])
  = Ret (VBool true) None (NewBuffer []).
Proof.
  rewrite (Decode_versioned (digits_of [104; 2; 100; 0; 4; 98; 101; 114; 116;
                                        100; 0; 4; 116; 114; 117; 101])).
  destruct (C8_bert_tuple_is_complex_term 2
              (digits_of [100; 0; 4; 116; 114; 117; 101]) None)
    as (_ & _ & Htrue & _); [lia|].
  apply Htrue. vm_compute. reflexivity.
Defined.

(** ** C9 *)



(** ** C10 *)


(** The arity byte of 256 elements is 0: the stream decodes as the empty
    tuple and leaves every element unread. *)
Example decode_wrapped_arity :
  exists unread,
    Decode (emitted (Encode (VSlice (repeat (VInt 1) 256))))
    = Ret (VSlice []) None (NewBuffer unread) /\
    length unread = 512%nat.
Proof. eexists. vm_compute. split; reflexivity. Qed.

(** ** Further properties at concrete inputs *)

Lemma DecodeFrom_bad_magic_witness :
  DecodeFrom (NewBuffer (digits_of [130; 97; 1]))
  = Ret VNil (Some ErrBadMagic) (NewBuffer (digits_of [97; 1])).
Proof.
  apply (DecodeFrom_bad_magic (uint8 130) (digits_of [97; 1]) None).
  vm_compute. discriminate.
Defined.

Lemma readTerm_unknown_tag_witness :
  Decode (digits_of [131; 105; 0; 0; 0; 0])
  = Ret VNil (Some ErrUnknownType) (NewBuffer (digits_of [0; 0; 0; 0])).
Proof.
  apply (readTerm_unknown_tag (uint8 105) (digits_of [0; 0; 0; 0]) None).
  reflexivity.
Defined.

Lemma Encode_only_error_witness :
  exists e, status (Encode (VSlice [VInt 1; VOther])) = Failed e /\
            e = ErrUnknownType.
Proof.
  eexists. split; [reflexivity|].
  apply (Encode_only_error (VSlice [VInt 1; VOther])). reflexivity.
Defined.

Lemma list_always_terminated_witness :
  exists body,
    emitted (writeTag (VArray [VInt 1; VOther; VInt 3]))
    = digits_of [108; 0; 0; 0; 3] ++ body ++ digits_of [106].
Proof.
  apply (list_always_terminated [VInt 1; VOther; VInt 3]).
  vm_compute. discriminate.
Defined.

Lemma failed_element_witness :
  Encode (VSlice [VInt 1; VBool true; VInt 2])
  = (digits_of [131; 104; 3; 97; 1], Failed ErrUnknownType) /\
  writeTag (VArray [VInt 1; VBool true; VInt 2])
  = (digits_of [108; 0; 0; 0; 3; 97; 1; 106], Failed ErrUnknownType).
Proof.
  destruct (failed_element_leaves_partial_output
              [VInt 1] [VInt 2] (VBool true) [] ErrUnknownType)
    as (_ & Hl & He).
  - cbn [All]. split; [reflexivity|exact I].
  - reflexivity.
  - split; [exact He|exact Hl].
Defined.

Lemma writeBitstring_payload_witness :
  writeBitstring (digits_of [255]) 9 = digits_of [77; 0; 0; 0; 2; 1; 0; 255] /\
  writeBitstring (digits_of [1; 2; 3]) 9 = digits_of [77; 0; 0; 0; 2; 1; 1; 2].
Proof.
  split.
  - apply (writeBitstring_payload (digits_of [255]) 9). lia.
  - apply (writeBitstring_payload (digits_of [1; 2; 3]) 9). lia.
Defined.

Lemma writeFloat_fixed_width_witness :
  len (emitted (@writeFloat fixture_floats F_half)) = 32.
Proof.
  apply (@writeFloat_fixed_width fixture_floats F_half). vm_compute. discriminate.
Defined.

Lemma readTerm_consumes_witness :
  Nat.lt (remaining (NewBuffer (digits_of [98; 0; 0; 1; 1])))
         (remaining (NewBuffer (digits_of [97; 7; 98; 0; 0; 1; 1]))).
Proof.
  apply (readTerm_consumes _ _ (VInt 7)). reflexivity.
Defined.


Lemma readList_terminator_witness :
  readTerm (NewBuffer (digits_of [108; 0; 0; 0; 2; 97; 1; 97; 2; 255; 7]))
  = Ret (VSlice [VInt 1; VInt 2]) None (NewBuffer (digits_of [7])) /\
  readTerm (NewBuffer (digits_of [108; 0; 0; 0; 2; 97; 1; 97; 2])) = Panic.
Proof.
  apply (readList_terminator_unchecked [VInt 1; VInt 2] (uint8 255)
           (digits_of [7]) None).
  - vm_compute. reflexivity.
  - cbn [All representable]. lia.
Defined.

Lemma readNil_drops_next_byte_witness :
  readTerm (NewBuffer (digits_of [106; 97; 1])) = Ret (VSlice []) None (NewBuffer (digits_of [1])) /\
  Decode (emitted (Encode (VSlice [VNil; VInt 1])))
  = Ret VNil (Some ErrUnknownType) (NewBuffer []).
Proof.
  destruct (readNil_drops_next_byte (uint8 97) (digits_of [1]) None 1)
    as (Hn & _ & Hd).
  split; [exact Hn|]. apply Hd; [lia|reflexivity].
Defined.

Lemma negative_size_field_witness :
  readTerm (NewBuffer (digits_of [108; 255; 255; 255; 255; 97; 1])) = Panic /\
  readTerm (NewBuffer (digits_of [109; 255; 255; 255; 255; 97; 1]))
  = Ret (VBytes []) None (NewBuffer (digits_of [97; 1])).
Proof.
  destruct (negative_size_field 4294967295 (digits_of [97; 1]) None)
    as (_ & Hl & Hb); [lia|].
  split; [exact Hl|exact Hb].
Defined.


Lemma UnmarshalFrom_binds_by_position_witness :
  Unmarshal (digits_of [131; 104; 2; 100; 0; 1; 97; 100; 0; 1; 98]) zeroRequest
  = Ret (mkRequest (digits_of [97]) (digits_of [98]) [] []) None (NewBuffer []) /\
  Unmarshal (digits_of [131; 104; 5; 97; 1; 97; 2; 97; 3; 97; 4; 97; 5]) zeroRequest
  = Panic.
Proof.
  split.
  - apply (UnmarshalFrom_binds_by_position
             (NewBuffer (digits_of [131; 104; 2; 100; 0; 1; 97; 100; 0; 1; 98]))
             (NewBuffer [])
             [VAtom (digits_of [97]); VAtom (digits_of [98])] None zeroRequest
             eq_refl)
      with (k := 2%nat) (kind := digits_of [97]) (module := digits_of [98])
           (function := []) (args := []).
    reflexivity.
  - apply (UnmarshalFrom_binds_by_position
             (NewBuffer (digits_of [131; 104; 5; 97; 1; 97; 2; 97; 3; 97; 4; 97; 5]))
             (NewBuffer [])
             [VInt 1; VInt 2; VInt 3; VInt 4; VInt 5] None zeroRequest eq_refl).
    simpl. lia.
Defined.


Lemma bert_anywhere_in_tuple_witness :
  readTerm (NewBuffer (digits_of [104; 3; 97; 1; 100; 0; 4; 98; 101; 114; 116;
                                  100; 0; 5; 102; 97; 108; 115; 101; 97; 9]))
  = Ret (VBool false) None (NewBuffer (digits_of [97; 9])).
Proof.
  rewrite (bert_anywhere_in_tuple [VInt 1] 3
             (digits_of [100; 0; 5; 102; 97; 108; 115; 101; 97; 9]) None).
  - reflexivity.
  - cbn [All representable isAtom]. repeat split. all: lia.
  - vm_compute. split; [reflexivity|discriminate].
Defined.

Lemma writeTag_first_byte_witness :
  writtenTag (byte.unsigned (uint8 110)) = true.
Proof.
  apply (writeTag_first_byte (VInt 100000000000) (uint8 110)
           (digits_of [5; 0; 0; 232; 118; 72; 23])).
  reflexivity.
Defined.



Lemma writeBitstring'_roundtrip_witness :
  Decode (emitted (Encode' (VBitstring (digits_of [255; 128]) 9)))
  = Ret (VBitstring (digits_of [255; 128]) 9) None (NewBuffer []).
Proof.
  apply (writeBitstring'_roundtrip (digits_of [255; 128]) 9).
  - vm_compute. discriminate.
  - lia.
Defined.
